(** * node_exporter collectors: qdisc, diskstats (darwin) and time

    A shallow embedding of three leaf collectors of the exporter and of the
    library calls they make, followed by the properties the collectors'
    specification states about them.

    - Go values [(x, err)] are pairs whose second component is an
      [option error] ([None] is [nil]).
    - [float64] is IEEE 754 binary64, through the executable specification
      of the Standard Library ([SpecFloat], precision 53, emax 1024).
    - A call of [Update] is run in a small writer monad [Exec]: it records
      the metrics sent on the channel and the log lines written, in order,
      and ends by returning or by panicking.
    - What a collector reads from the operating system (netlink, files,
      IOKit, the clock) is a field of the record [World]. *)

From Stdlib Require Import ZArith List String Ascii Bool Lia Lqa.
From Stdlib Require Import QArith Qabs Qpower.
From Stdlib Require Import SpecFloat.
Import ListNotations.

Local Open Scope Z_scope.
Local Open Scope string_scope.
Local Open Scope list_scope.

(* ------------------------------------------------------------------ *)
(** ** Go's float64 *)

Module Float64.

Definition prec : Z := 53.
Definition emax : Z := 1024.

Definition float64 : Type := spec_float.

(** [float64(n)] for an integer [n]: round to nearest, ties to even. *)
Definition of_int (n : Z) : float64 := binary_normalize prec emax n 0 false.

Definition add (x y : float64) : float64 := SFadd prec emax x y.
Definition div (x y : float64) : float64 := SFdiv prec emax x y.

(** The untyped constant [1e9] converted to float64. *)
Definition c1e9 : float64 := of_int 1000000000.

(** Signed mantissa of a float. *)
Definition mantissa (x : float64) : Z :=
  match x with
  | S754_finite s m _ => cond_Zopp s (Zpos m)
  | _ => 0
  end.

Definition exponent (x : float64) : Z :=
  match x with
  | S754_finite _ _ e => e
  | _ => 0
  end.

Definition is_finite (x : float64) : bool :=
  match x with
  | S754_finite _ _ _ | S754_zero _ => true
  | _ => false
  end.

(** The rational number a finite float denotes (0 for the others). *)
Definition toQ (x : float64) : Q :=
  (inject_Z (mantissa x) * Qpower 2 (exponent x))%Q.

End Float64.

Definition float64 : Type := Float64.float64.

(* ------------------------------------------------------------------ *)
(** ** Errors, and the effects of one call *)

(** A Go [error]: a message, or [fmt.Errorf] with the verb [%w] around
    another error. *)
Inductive error : Type :=
| errorString (msg : string)
| wrapError (msg : string) (err : error).

Definition Error (e : error) : string :=
  match e with
  | errorString msg => msg
  | wrapError msg _ => msg
  end.

Definition Unwrap (e : error) : option error :=
  match e with
  | errorString _ => None
  | wrapError _ err => Some err
  end.

(** [fmt.Errorf(prefix + "%w", err)]. *)
Definition fmt_Errorf_w (prefix : string) (err : error) : error :=
  wrapError (prefix ++ Error err) err.

Module prometheus.

Inductive ValueType : Type := CounterValue | GaugeValue | UntypedValue.

Definition Labels : Type := list (string * string).

Record Desc : Type := {
  fqName : string;
  help : string;
  variableLabels : list string;
  constLabelPairs : Labels
}.

Record Metric : Type := {
  desc : Desc;
  valType : ValueType;
  value : float64;
  labelValues : list string
}.

Definition nonEmpty (s : string) : bool := negb (s =? "").

(** [BuildFQName] joins the non-empty parts with "_"; an empty [name]
    gives the empty string. *)
Definition BuildFQName (namespace subsystem name : string) : string :=
  if name =? "" then ""
  else if nonEmpty namespace && nonEmpty subsystem
       then namespace ++ "_" ++ subsystem ++ "_" ++ name
  else if nonEmpty namespace then namespace ++ "_" ++ name
  else if nonEmpty subsystem then subsystem ++ "_" ++ name
  else name.

Definition NewDesc (fqName help : string) (variableLabels : list string)
           (constLabels : Labels) : Desc :=
  {| fqName := fqName; help := help;
     variableLabels := variableLabels; constLabelPairs := constLabels |}.

End prometheus.

Arguments prometheus.BuildFQName : simpl never.

Section Exec.

Variable Logger : Type.

Inductive LogValue : Type :=
| LogString (s : string)
| LogFloat (x : float64).

Record LogLine : Type := {
  log_to : Logger;
  log_level : string;
  log_keyvals : list (string * LogValue)
}.

(** What a call has written so far: the metrics sent on [ch], oldest
    first, and the log lines. *)
Record Output : Type := {
  sent : list prometheus.Metric;
  logged : list LogLine
}.

Inductive Outcome (A : Type) : Type :=
| Returned (a : A)
| Panicked.

Definition Exec (A : Type) : Type := (Output * Outcome A)%type.

Definition silent : Output := {| sent := []; logged := [] |}.

Definition out_app (o1 o2 : Output) : Output :=
  {| sent := sent o1 ++ sent o2; logged := logged o1 ++ logged o2 |}.

Definition ret {A : Type} (a : A) : Exec A := (silent, Returned A a).

Definition panic {A : Type} : Exec A := (silent, Panicked A).

Definition bind {A B : Type} (m : Exec A) (f : A -> Exec B) : Exec B :=
  match m with
  | (o1, Returned _ a) => let '(o2, r) := f a in (out_app o1 o2, r)
  | (o1, Panicked _) => (o1, Panicked B)
  end.

(** [ch <- m] *)
Definition send (m : prometheus.Metric) : Exec unit :=
  ({| sent := [m]; logged := [] |}, Returned unit tt).

(** [level.Debug(logger).Log(keyvals...)] *)
Definition level_Debug_Log (logger : Logger)
           (keyvals : list (string * LogValue)) : Exec unit :=
  ({| sent := [];
      logged := [ {| log_to := logger; log_level := "debug";
                     log_keyvals := keyvals |} ] |},
   Returned unit tt).

(** [for _, x := range xs { body }] *)
Fixpoint forRange {A : Type} (xs : list A) (body : A -> Exec unit)
  : Exec unit :=
  match xs with
  | [] => ret tt
  | x :: rest => bind (body x) (fun _ => forRange rest body)
  end.

(** [prometheus.MustNewConstMetric]: panics when the number of label
    values is not the number of the descriptor's label names. *)
Definition MustNewConstMetric (d : prometheus.Desc)
           (vt : prometheus.ValueType) (v : float64)
           (labelValues : list string) : Exec prometheus.Metric :=
  if (List.length labelValues =? List.length (prometheus.variableLabels d))%nat
  then ret {| prometheus.desc := d; prometheus.valType := vt;
              prometheus.value := v;
              prometheus.labelValues := labelValues |}
  else panic.

End Exec.

Arguments Returned {A} a.
Arguments Panicked {A}.
Arguments sent {Logger} _.
Arguments logged {Logger} _.
Arguments ret {Logger A} a.
Arguments panic {Logger A}.
Arguments bind {Logger A B} m f.
Arguments send {Logger} m.
Arguments silent {Logger}.
Arguments out_app {Logger} o1 o2.
Arguments level_Debug_Log {Logger} logger keyvals.
Arguments forRange {Logger A} xs body.
Arguments MustNewConstMetric {Logger} d vt v labelValues.

Declare Scope exec_scope.
Delimit Scope exec_scope with exec.
Notation "x <- m ;; k" := (bind m (fun x => k))
  (at level 100, m at next level, right associativity) : exec_scope.
Notation "m ;;; k" := (bind m (fun _ => k))
  (at level 100, right associativity) : exec_scope.

(* ------------------------------------------------------------------ *)
(** ** The libraries the collectors read from *)

Module qdisc.

(** [qdisc.QdiscInfo] (github.com/ema/qdisc); [Bytes] is a uint64, the
    other numbers are uint32. *)
Record QdiscInfo : Type := {
  IfaceName : string;
  Parent : Z;
  Handle : Z;
  Kind : string;
  Bytes : Z;
  Packets : Z;
  Drops : Z;
  Requeues : Z;
  Overlimits : Z;
  Qlen : Z;
  Backlog : Z
}.

End qdisc.

Module gotime.

(** [time.Duration] is an int64 count of nanoseconds. *)
Definition Duration : Type := Z.

Definition Second : Duration := 1000000000.

(** [Duration.Seconds]: integer division and remainder truncate. *)
Definition Seconds (d : Duration) : float64 :=
  let sec := Z.quot d Second in
  let nsec := Z.rem d Second in
  Float64.add (Float64.of_int sec)
              (Float64.div (Float64.of_int nsec) Float64.c1e9).

End gotime.

Module iostat.

(** [iostat.DriveStats] (github.com/lufia/iostat); the numbers are
    int64. *)
Record DriveStats : Type := {
  Name : string;
  Size : Z;
  BlockSize : Z;
  BytesRead : Z;
  BytesWritten : Z;
  NumRead : Z;
  NumWrite : Z;
  TotalReadTime : gotime.Duration;
  TotalWriteTime : gotime.Duration;
  ReadLatency : gotime.Duration;
  WriteLatency : gotime.Duration;
  ReadErrors : Z;
  WriteErrors : Z;
  ReadRetries : Z;
  WriteRetries : Z
}.

End iostat.

(** The state of the machine as one call of [Update] sees it. *)
Record World : Type := {
  (** what [qdisc.Get()] returns *)
  qdisc_Get : list qdisc.QdiscInfo * option error;
  (** what [ioutil.ReadFile(path)] returns *)
  ioutil_ReadFile : string -> string * option error;
  (** what [iostat.ReadDriveStats()] returns *)
  iostat_ReadDriveStats : list iostat.DriveStats * option error;
  (** what [time.Now().UnixNano()] returns *)
  time_Now_UnixNano : Z
}.

(* ------------------------------------------------------------------ *)
(** ** collector.go: the typed descriptor *)

Module Collector.

Record typedDesc : Type := {
  desc : prometheus.Desc;
  valueType : prometheus.ValueType
}.

(** Modelled from the spec: [typedDesc.mustNewConstMetric], declared in
    collector.go, is the [observe] of the typed metric descriptor: it
    turns a value and label values into a sample of the descriptor's
    kind, and fails (a panic) exactly when the number of label values is
    not the descriptor's number of label names. *)
Definition mustNewConstMetric {Logger : Type} (d : typedDesc)
           (value : float64) (labels : list string)
  : Exec Logger prometheus.Metric :=
  MustNewConstMetric (desc d) (valueType d) value labels.

End Collector.

(* ------------------------------------------------------------------ *)
(** ** qdisc_linux.go *)

Module Qdisc.
Section Qdisc.

Variable Logger : Type.

(** Declared elsewhere in package collector. *)
Variable namespace : string.
Variable constLabels : prometheus.Labels.

(** [json.Unmarshal(b, &res)]: the slice it leaves in [res] and its
    error. *)
Variable json_Unmarshal : string -> list qdisc.QdiscInfo * option error.
(** [filepath.Join] *)
Variable filepath_Join : string -> string -> string.

Record qdiscStatCollector : Type := {
  bytes : Collector.typedDesc;
  packets : Collector.typedDesc;
  drops : Collector.typedDesc;
  requeues : Collector.typedDesc;
  overlimits : Collector.typedDesc;
  qlength : Collector.typedDesc;
  backlog : Collector.typedDesc;
  logger : Logger
}.

Definition NewQdiscStatCollector (logger : Logger)
  : qdiscStatCollector * option error :=
  ({| bytes := {| Collector.desc := prometheus.NewDesc
          (prometheus.BuildFQName namespace "qdisc" "bytes_total")
          "Number of bytes sent."
          ["device"; "kind"] constLabels;
        Collector.valueType := prometheus.CounterValue |};
      packets := {| Collector.desc := prometheus.NewDesc
          (prometheus.BuildFQName namespace "qdisc" "packets_total")
          "Number of packets sent."
          ["device"; "kind"] constLabels;
        Collector.valueType := prometheus.CounterValue |};
      drops := {| Collector.desc := prometheus.NewDesc
          (prometheus.BuildFQName namespace "qdisc" "drops_total")
          "Number of packets dropped."
          ["device"; "kind"] constLabels;
        Collector.valueType := prometheus.CounterValue |};
      requeues := {| Collector.desc := prometheus.NewDesc
          (prometheus.BuildFQName namespace "qdisc" "requeues_total")
          "Number of packets dequeued, not transmitted, and requeued."
          ["device"; "kind"] constLabels;
        Collector.valueType := prometheus.CounterValue |};
      overlimits := {| Collector.desc := prometheus.NewDesc
          (prometheus.BuildFQName namespace "qdisc" "overlimits_total")
          "Number of overlimit packets."
          ["device"; "kind"] constLabels;
        Collector.valueType := prometheus.CounterValue |};
      qlength := {| Collector.desc := prometheus.NewDesc
          (prometheus.BuildFQName namespace "qdisc" "current_queue_length")
          "Number of packets currently in queue to be sent."
          ["device"; "kind"] constLabels;
        Collector.valueType := prometheus.GaugeValue |};
      backlog := {| Collector.desc := prometheus.NewDesc
          (prometheus.BuildFQName namespace "qdisc" "backlog")
          "Number of bytes currently in queue to be sent."
          ["device"; "kind"] constLabels;
        Collector.valueType := prometheus.GaugeValue |};
      logger := logger |},
   None).

Definition testQdiscGet (w : World) (fixtures : string)
  : list qdisc.QdiscInfo * option error :=
  let res : list qdisc.QdiscInfo := [] in
  let '(b, err) := ioutil_ReadFile w (filepath_Join fixtures "results.json") in
  match err with
  | Some _ => (res, err)
  | None => json_Unmarshal b
  end.

(** [collectorQdisc] is the value of the flag
    [--collector.qdisc.fixtures] (default: the empty string). *)
Definition Update (c : qdiscStatCollector) (collectorQdisc : string)
           (w : World) : Exec Logger (option error) :=
  let fixtures := collectorQdisc in
  let '(msgs, err) :=
    if fixtures =? "" then qdisc_Get w else testQdiscGet w fixtures in
  match err with
  | Some _ => ret err
  | None =>
    (forRange msgs (fun msg =>
       (* Only report root qdisc information. *)
       if negb (qdisc.Parent msg =? 0)%Z then ret tt
       else
         (m <- Collector.mustNewConstMetric (bytes c)
                (Float64.of_int (qdisc.Bytes msg))
                [qdisc.IfaceName msg; qdisc.Kind msg] ;; send m) ;;;
         (m <- Collector.mustNewConstMetric (packets c)
                (Float64.of_int (qdisc.Packets msg))
                [qdisc.IfaceName msg; qdisc.Kind msg] ;; send m) ;;;
         (m <- Collector.mustNewConstMetric (drops c)
                (Float64.of_int (qdisc.Drops msg))
                [qdisc.IfaceName msg; qdisc.Kind msg] ;; send m) ;;;
         (m <- Collector.mustNewConstMetric (requeues c)
                (Float64.of_int (qdisc.Requeues msg))
                [qdisc.IfaceName msg; qdisc.Kind msg] ;; send m) ;;;
         (m <- Collector.mustNewConstMetric (overlimits c)
                (Float64.of_int (qdisc.Overlimits msg))
                [qdisc.IfaceName msg; qdisc.Kind msg] ;; send m) ;;;
         (m <- Collector.mustNewConstMetric (qlength c)
                (Float64.of_int (qdisc.Qlen msg))
                [qdisc.IfaceName msg; qdisc.Kind msg] ;; send m) ;;;
         (m <- Collector.mustNewConstMetric (backlog c)
                (Float64.of_int (qdisc.Backlog msg))
                [qdisc.IfaceName msg; qdisc.Kind msg] ;; send m)) ;;;
     ret None)%exec
  end.

End Qdisc.
End Qdisc.

(* ------------------------------------------------------------------ *)
(** ** diskstats_darwin.go *)

Module Diskstats.
Section Diskstats.

Variable Logger : Type.

(** Declared elsewhere in package collector. *)
Variable namespace : string.
Variable diskSubsystem : string.
Variable diskLabelNames : list string.
Variable constLabels : prometheus.Labels.

Record typedDescFunc : Type := {
  typedDesc : Collector.typedDesc;
  value : iostat.DriveStats -> float64
}.

Record diskstatsCollector : Type := {
  descs : list typedDescFunc;
  logger : Logger
}.

Definition NewDiskstatsCollector (logger : Logger)
  : diskstatsCollector * option error :=
  let readsCompletedDesc := prometheus.NewDesc
    (prometheus.BuildFQName namespace diskSubsystem "reads_completed_total")
    "The total number of reads completed successfully."
    diskLabelNames constLabels in
  let readBytesDesc := prometheus.NewDesc
    (prometheus.BuildFQName namespace diskSubsystem "read_bytes_total")
    "The total number of bytes read successfully."
    diskLabelNames constLabels in
  let writesCompletedDesc := prometheus.NewDesc
    (prometheus.BuildFQName namespace diskSubsystem "writes_completed_total")
    "The total number of writes completed successfully."
    diskLabelNames constLabels in
  let writtenBytesDesc := prometheus.NewDesc
    (prometheus.BuildFQName namespace diskSubsystem "written_bytes_total")
    "The total number of bytes written successfully."
    diskLabelNames constLabels in
  let ioTimeSecondsDesc := prometheus.NewDesc
    (prometheus.BuildFQName namespace diskSubsystem "io_time_seconds_total")
    "Total seconds spent doing I/Os."
    diskLabelNames constLabels in
  let readTimeSecondsDesc := prometheus.NewDesc
    (prometheus.BuildFQName namespace diskSubsystem "read_time_seconds_total")
    "The total number of seconds spent by all reads."
    diskLabelNames constLabels in
  let writeTimeSecondsDesc := prometheus.NewDesc
    (prometheus.BuildFQName namespace diskSubsystem "write_time_seconds_total")
    "This is the total number of seconds spent by all writes."
    diskLabelNames constLabels in
  ({| descs := [
        {| typedDesc := {| Collector.desc := readsCompletedDesc;
                           Collector.valueType := prometheus.CounterValue |};
           value := fun stat => Float64.of_int (iostat.NumRead stat) |};
        {| typedDesc := {| Collector.desc := prometheus.NewDesc
               (prometheus.BuildFQName namespace diskSubsystem "read_sectors_total")
               "The total number of sectors read successfully."
               diskLabelNames constLabels;
             Collector.valueType := prometheus.CounterValue |};
           value := fun stat =>
             Float64.div (Float64.of_int (iostat.NumRead stat))
                         (Float64.of_int (iostat.BlockSize stat)) |};
        {| typedDesc := {| Collector.desc := readTimeSecondsDesc;
                           Collector.valueType := prometheus.CounterValue |};
           value := fun stat => gotime.Seconds (iostat.TotalReadTime stat) |};
        {| typedDesc := {| Collector.desc := writesCompletedDesc;
                           Collector.valueType := prometheus.CounterValue |};
           value := fun stat => Float64.of_int (iostat.NumWrite stat) |};
        {| typedDesc := {| Collector.desc := prometheus.NewDesc
               (prometheus.BuildFQName namespace diskSubsystem "written_sectors_total")
               "The total number of sectors written successfully."
               diskLabelNames constLabels;
             Collector.valueType := prometheus.CounterValue |};
           value := fun stat =>
             Float64.div (Float64.of_int (iostat.NumWrite stat))
                         (Float64.of_int (iostat.BlockSize stat)) |};
        {| typedDesc := {| Collector.desc := writeTimeSecondsDesc;
                           Collector.valueType := prometheus.CounterValue |};
           value := fun stat => gotime.Seconds (iostat.TotalWriteTime stat) |};
        {| typedDesc := {| Collector.desc := readBytesDesc;
                           Collector.valueType := prometheus.CounterValue |};
           value := fun stat => Float64.of_int (iostat.BytesRead stat) |};
        {| typedDesc := {| Collector.desc := writtenBytesDesc;
                           Collector.valueType := prometheus.CounterValue |};
           value := fun stat => Float64.of_int (iostat.BytesWritten stat) |};
        {| typedDesc := {| Collector.desc := prometheus.NewDesc
               (prometheus.BuildFQName namespace diskSubsystem "read_errors_total")
               "The total number of read errors."
               diskLabelNames constLabels;
             Collector.valueType := prometheus.CounterValue |};
           value := fun stat => Float64.of_int (iostat.ReadErrors stat) |};
        {| typedDesc := {| Collector.desc := prometheus.NewDesc
               (prometheus.BuildFQName namespace diskSubsystem "write_errors_total")
               "The total number of write errors."
               diskLabelNames constLabels;
             Collector.valueType := prometheus.CounterValue |};
           value := fun stat => Float64.of_int (iostat.WriteErrors stat) |};
        {| typedDesc := {| Collector.desc := prometheus.NewDesc
               (prometheus.BuildFQName namespace diskSubsystem "read_retries_total")
               "The total number of read retries."
               diskLabelNames constLabels;
             Collector.valueType := prometheus.CounterValue |};
           value := fun stat => Float64.of_int (iostat.ReadRetries stat) |};
        {| typedDesc := {| Collector.desc := prometheus.NewDesc
               (prometheus.BuildFQName namespace diskSubsystem "write_retries_total")
               "The total number of write retries."
               diskLabelNames constLabels;
             Collector.valueType := prometheus.CounterValue |};
           value := fun stat => Float64.of_int (iostat.WriteRetries stat) |}
      ];
      logger := logger |},
   None).

Definition Update (c : diskstatsCollector) (w : World)
  : Exec Logger (option error) :=
  let '(diskStats, err) := iostat_ReadDriveStats w in
  match err with
  | Some e => ret (Some (fmt_Errorf_w "couldn't get diskstats: " e))
  | None =>
    (forRange diskStats (fun stats =>
       forRange (descs c) (fun desc =>
         let v := value desc stats in
         m <- Collector.mustNewConstMetric (typedDesc desc) v
                [iostat.Name stats] ;; send m)) ;;;
     ret None)%exec
  end.

End Diskstats.
End Diskstats.

(* ------------------------------------------------------------------ *)
(** ** time.go *)

Module Time.
Section Time.

Variable Logger : Type.

(** Declared elsewhere in package collector. *)
Variable namespace : string.
Variable constLabels : prometheus.Labels.

Record timeCollector : Type := {
  desc : prometheus.Desc;
  logger : Logger
}.

Definition NewTimeCollector (logger : Logger)
  : timeCollector * option error :=
  ({| desc := prometheus.NewDesc
        (namespace ++ "_time_seconds")
        "System time in seconds since epoch (1970)."
        [] constLabels;
      logger := logger |},
   None).

Definition Update (c : timeCollector) (w : World)
  : Exec Logger (option error) :=
  let now := Float64.div (Float64.of_int (time_Now_UnixNano w))
                         Float64.c1e9 in
  (level_Debug_Log (logger c)
     [("msg", LogString "Return time"); ("now", LogFloat now)] ;;;
   m <- MustNewConstMetric (desc c) prometheus.GaugeValue now [] ;;
   send m ;;;
   ret None)%exec.

End Time.
End Time.

(* ------------------------------------------------------------------ *)
(** ** Vocabulary of the specification *)

(** The sample a typed descriptor yields for a value and label values. *)
Definition observe (d : Collector.typedDesc) (v : float64)
           (labels : list string) : prometheus.Metric :=
  {| prometheus.desc := Collector.desc d;
     prometheus.valType := Collector.valueType d;
     prometheus.value := v;
     prometheus.labelValues := labels |}.

(** An entry at the root of the hierarchy. *)
Definition isRoot (msg : qdisc.QdiscInfo) : bool := (qdisc.Parent msg =? 0)%Z.

(** The declared counters of the qdisc collector, in declaration order. *)
Definition qdiscDeclared {Logger : Type} (c : Qdisc.qdiscStatCollector Logger)
  : list Collector.typedDesc :=
  [Qdisc.bytes _ c; Qdisc.packets _ c; Qdisc.drops _ c; Qdisc.requeues _ c;
   Qdisc.overlimits _ c; Qdisc.qlength _ c; Qdisc.backlog _ c].

(** All the samples of one qdisc entry: one per declared counter. *)
Definition qdiscCounters {Logger : Type} (c : Qdisc.qdiscStatCollector Logger)
           (msg : qdisc.QdiscInfo) : list prometheus.Metric :=
  let labels := [qdisc.IfaceName msg; qdisc.Kind msg] in
  [observe (Qdisc.bytes _ c) (Float64.of_int (qdisc.Bytes msg)) labels;
   observe (Qdisc.packets _ c) (Float64.of_int (qdisc.Packets msg)) labels;
   observe (Qdisc.drops _ c) (Float64.of_int (qdisc.Drops msg)) labels;
   observe (Qdisc.requeues _ c) (Float64.of_int (qdisc.Requeues msg)) labels;
   observe (Qdisc.overlimits _ c) (Float64.of_int (qdisc.Overlimits msg)) labels;
   observe (Qdisc.qlength _ c) (Float64.of_int (qdisc.Qlen msg)) labels;
   observe (Qdisc.backlog _ c) (Float64.of_int (qdisc.Backlog msg)) labels].

(** All the samples of one drive: one per declared counter. *)
Definition driveCounters {Logger : Type}
           (c : Diskstats.diskstatsCollector Logger)
           (stats : iostat.DriveStats) : list prometheus.Metric :=
  map (fun d => observe (Diskstats.typedDesc d) (Diskstats.value d stats)
                        [iostat.Name stats])
      (Diskstats.descs _ c).

(** The samples of a cycle that belong to the series of a given name. *)
Definition series (name : string) (ms : list prometheus.Metric)
  : list prometheus.Metric :=
  filter (fun m => prometheus.fqName (prometheus.desc m) =? name) ms.

(** The samples sent during a call, and how the call ended. *)
Definition samples {Logger A : Type} (r : Exec Logger A)
  : list prometheus.Metric := sent (fst r).

Definition result {Logger A : Type} (r : Exec Logger A) : Outcome A := snd r.

(** The call returned a non-nil error. *)
Definition returnsError {Logger : Type} (r : Exec Logger (option error))
  : Prop := exists e, result r = Returned (Some e).

(** The call returned nil. *)
Definition returnsNil {Logger : Type} (r : Exec Logger (option error))
  : Prop := result r = Returned None.

(** A call that only sends [ms] and returns. *)
Definition sends {Logger : Type} (ms : list prometheus.Metric)
  : Exec Logger unit :=
  ({| sent := ms; logged := [] |}, Returned tt).

(** The data source of a call of the qdisc collector: the live one when
    the flag is empty, the fixture reader otherwise. *)
Definition qdiscSource
           (json_Unmarshal : string -> list qdisc.QdiscInfo * option error)
           (filepath_Join : string -> string -> string)
           (w : World) (fixtures : string)
  : list qdisc.QdiscInfo * option error :=
  if fixtures =? "" then qdisc_Get w
  else Qdisc.testQdiscGet json_Unmarshal filepath_Join w fixtures.

(** Emission following the specification: on a failed fetch nothing is
    sent and the error is returned; otherwise every root entry yields all
    its counters, children yield nothing. *)
Definition qdiscEmit {Logger : Type} (c : Qdisc.qdiscStatCollector Logger)
           (fetched : list qdisc.QdiscInfo * option error)
  : Exec Logger (option error) :=
  match snd fetched with
  | Some e => ret (Some e)
  | None =>
    ({| sent := flat_map (qdiscCounters c) (filter isRoot (fst fetched));
        logged := [] |}, Returned None)
  end.

(* ------------------------------------------------------------------ *)
(** ** A concrete machine *)

Module Example.

Definition namespace : string := "node".
Definition diskSubsystem : string := "disk".
Definition diskLabelNames : list string := ["device"].
Definition constLabels : prometheus.Labels := [].

Definition filepath_Join (dir file : string) : string :=
  dir ++ "/" ++ file.

Definition root_entry : qdisc.QdiscInfo :=
  {| qdisc.IfaceName := "eth0"; qdisc.Parent := 0; qdisc.Handle := 65536;
     qdisc.Kind := "pfifo"; qdisc.Bytes := 1000; qdisc.Packets := 10;
     qdisc.Drops := 0; qdisc.Requeues := 0; qdisc.Overlimits := 0;
     qdisc.Qlen := 5; qdisc.Backlog := 200 |}.

Definition child_entry : qdisc.QdiscInfo :=
  {| qdisc.IfaceName := "eth0"; qdisc.Parent := 65536; qdisc.Handle := 131072;
     qdisc.Kind := "fq_codel"; qdisc.Bytes := 42; qdisc.Packets := 42;
     qdisc.Drops := 1; qdisc.Requeues := 2; qdisc.Overlimits := 0;
     qdisc.Qlen := 0; qdisc.Backlog := 0 |}.

Definition fixture_text : string := "[root, child]".

(** A decoder that knows one document. *)
Definition json_Unmarshal (b : string)
  : list qdisc.QdiscInfo * option error :=
  if b =? fixture_text then ([root_entry; child_entry], None)
  else ([], Some (errorString "invalid character")).

Definition disk0 : iostat.DriveStats :=
  {| iostat.Name := "disk0"; iostat.Size := 500107862016;
     iostat.BlockSize := 4096; iostat.BytesRead := 8192000;
     iostat.BytesWritten := 4096000; iostat.NumRead := 2000;
     iostat.NumWrite := 1000; iostat.TotalReadTime := 1500000000;
     iostat.TotalWriteTime := 2500000000; iostat.ReadLatency := 0;
     iostat.WriteLatency := 0; iostat.ReadErrors := 0;
     iostat.WriteErrors := 0; iostat.ReadRetries := 0;
     iostat.WriteRetries := 0 |}.

Definition files (path : string) : string * option error :=
  if path =? "fixtures/qdisc/results.json" then (fixture_text, None)
  else ("", Some (errorString "no such file or directory")).

Definition machine : World :=
  {| qdisc_Get := ([root_entry; child_entry], None);
     ioutil_ReadFile := files;
     iostat_ReadDriveStats := ([disk0], None);
     time_Now_UnixNano := 1700000000123456789 |}.

(** The same files on a machine where the live sources fail, one second
    later. *)
Definition machine_later : World :=
  {| qdisc_Get := ([], Some (errorString "netlink: operation not permitted"));
     ioutil_ReadFile := files;
     iostat_ReadDriveStats := ([], Some (errorString "IOKit: not available"));
     time_Now_UnixNano := 1700000001123456789 |}.

End Example.

(* ------------------------------------------------------------------ *)
(** ** Integer ranges and raw counters *)

Definition uint32 (z : Z) : Prop := 0 <= z < 2 ^ 32.
Definition uint64 (z : Z) : Prop := 0 <= z < 2 ^ 64.
Definition int64 (z : Z) : Prop := - 2 ^ 63 <= z < 2 ^ 63.

(** An entry whose numbers fit the Go types of [qdisc.QdiscInfo]. *)
Definition qdiscWellTyped (msg : qdisc.QdiscInfo) : Prop :=
  uint32 (qdisc.Parent msg) /\ uint32 (qdisc.Handle msg) /\
  uint64 (qdisc.Bytes msg) /\ uint32 (qdisc.Packets msg) /\
  uint32 (qdisc.Drops msg) /\ uint32 (qdisc.Requeues msg) /\
  uint32 (qdisc.Overlimits msg) /\ uint32 (qdisc.Qlen msg) /\
  uint32 (qdisc.Backlog msg).

(** The integer counters of an entry, in the order [Update] sends them. *)
Definition qdiscRaw (msg : qdisc.QdiscInfo) : list Z :=
  [qdisc.Bytes msg; qdisc.Packets msg; qdisc.Drops msg;
   qdisc.Requeues msg; qdisc.Overlimits msg; qdisc.Qlen msg;
   qdisc.Backlog msg].

(** The float [x] stands for the integer [z]: it is finite, within 1024 of
    [z], and equal to [z] when [z] is below [2^53] in magnitude. *)
Definition faithful (x : float64) (z : Z) : Prop :=
  Float64.is_finite x = true /\
  (Qabs (Float64.toQ x - inject_Z z) <= 1024)%Q /\
  (- 2 ^ 53 < z < 2 ^ 53 -> (Float64.toQ x == inject_Z z)%Q).

(** A drive's statistics with the fields no descriptor reads ([Size],
    [ReadLatency], [WriteLatency]) set to zero. *)
Definition reported (st : iostat.DriveStats) : iostat.DriveStats :=
  {| iostat.Name := iostat.Name st;
     iostat.Size := 0;
     iostat.BlockSize := iostat.BlockSize st;
     iostat.BytesRead := iostat.BytesRead st;
     iostat.BytesWritten := iostat.BytesWritten st;
     iostat.NumRead := iostat.NumRead st;
     iostat.NumWrite := iostat.NumWrite st;
     iostat.TotalReadTime := iostat.TotalReadTime st;
     iostat.TotalWriteTime := iostat.TotalWriteTime st;
     iostat.ReadLatency := 0;
     iostat.WriteLatency := 0;
     iostat.ReadErrors := iostat.ReadErrors st;
     iostat.WriteErrors := iostat.WriteErrors st;
     iostat.ReadRetries := iostat.ReadRetries st;
     iostat.WriteRetries := iostat.WriteRetries st |}.

(** What dividing the float of [n] by a zero float gives: not a number
    for zero, an infinity of the sign of [n] otherwise. *)
Definition overZero (n : Z) : float64 :=
  match n with
  | Z0 => S754_nan
  | Zpos _ => S754_infinity false
  | Zneg _ => S754_infinity true
  end.

(** The float [x] stands for the duration [d] (nanoseconds) in seconds:
    it is finite, within 4 microseconds of it, and equal to it when [d]
    is a whole number of seconds. *)
Definition secondsNear (x : float64) (d : Z) : Prop :=
  Float64.is_finite x = true /\
  (Qabs (Float64.toQ x - (d # 1000000000)) <= 1 # 250000)%Q /\
  (Z.rem d 1000000000 = 0 -> (Float64.toQ x == d # 1000000000)%Q).

(** A drive whose numbers fit the Go types of [iostat.DriveStats]. *)
Definition driveWellTyped (st : iostat.DriveStats) : Prop :=
  int64 (iostat.Size st) /\ int64 (iostat.BlockSize st) /\
  int64 (iostat.BytesRead st) /\ int64 (iostat.BytesWritten st) /\
  int64 (iostat.NumRead st) /\ int64 (iostat.NumWrite st) /\
  int64 (iostat.TotalReadTime st) /\ int64 (iostat.TotalWriteTime st) /\
  int64 (iostat.ReadLatency st) /\ int64 (iostat.WriteLatency st) /\
  int64 (iostat.ReadErrors st) /\ int64 (iostat.WriteErrors st) /\
  int64 (iostat.ReadRetries st) /\ int64 (iostat.WriteRetries st).

(** What each of the twelve values sent for a drive stands for, in the
    order they are sent. *)
Definition driveMeaning (st : iostat.DriveStats) : list (float64 -> Prop) :=
  [ (fun x => faithful x (iostat.NumRead st));
    (fun x => x = Float64.div (Float64.of_int (iostat.NumRead st))
                              (Float64.of_int (iostat.BlockSize st)));
    (fun x => secondsNear x (iostat.TotalReadTime st));
    (fun x => faithful x (iostat.NumWrite st));
    (fun x => x = Float64.div (Float64.of_int (iostat.NumWrite st))
                              (Float64.of_int (iostat.BlockSize st)));
    (fun x => secondsNear x (iostat.TotalWriteTime st));
    (fun x => faithful x (iostat.BytesRead st));
    (fun x => faithful x (iostat.BytesWritten st));
    (fun x => faithful x (iostat.ReadErrors st));
    (fun x => faithful x (iostat.WriteErrors st));
    (fun x => faithful x (iostat.ReadRetries st));
    (fun x => faithful x (iostat.WriteRetries st)) ].

(* ------------------------------------------------------------------ *)
(** ** More concrete machines *)

Module Lab.

(** A drive that reports a zero block size. *)
Definition blank_disk : iostat.DriveStats :=
  {| iostat.Name := "disk1"; iostat.Size := 0; iostat.BlockSize := 0;
     iostat.BytesRead := 0; iostat.BytesWritten := 0;
     iostat.NumRead := 7; iostat.NumWrite := 0;
     iostat.TotalReadTime := 0; iostat.TotalWriteTime := 0;
     iostat.ReadLatency := 0; iostat.WriteLatency := 0;
     iostat.ReadErrors := 0; iostat.WriteErrors := 0;
     iostat.ReadRetries := 0; iostat.WriteRetries := 0 |}.

(** [Example.disk0] with another size and other latencies. *)
Definition disk0_resized : iostat.DriveStats :=
  {| iostat.Name := "disk0"; iostat.Size := 1000204886016;
     iostat.BlockSize := 4096; iostat.BytesRead := 8192000;
     iostat.BytesWritten := 4096000; iostat.NumRead := 2000;
     iostat.NumWrite := 1000; iostat.TotalReadTime := 1500000000;
     iostat.TotalWriteTime := 2500000000; iostat.ReadLatency := 125000;
     iostat.WriteLatency := 250000; iostat.ReadErrors := 0;
     iostat.WriteErrors := 0; iostat.ReadRetries := 0;
     iostat.WriteRetries := 0 |}.

Definition machine_blank : World :=
  {| qdisc_Get := ([Example.root_entry; Example.child_entry], None);
     ioutil_ReadFile := Example.files;
     iostat_ReadDriveStats := ([Example.disk0; blank_disk], None);
     time_Now_UnixNano := 1700000000123456789 |}.

Definition machine_resized : World :=
  {| qdisc_Get := ([Example.root_entry; Example.child_entry], None);
     ioutil_ReadFile := Example.files;
     iostat_ReadDriveStats := ([disk0_resized], None);
     time_Now_UnixNano := 1700000000123456789 |}.

(** A decoder that accepts nothing. *)
Definition json_reject (b : string) : list qdisc.QdiscInfo * option error :=
  ([], Some (errorString "unexpected end of JSON input")).

End Lab.

(* ------------------------------------------------------------------ *)
(** ** Rounding: where a truncated mantissa stands *)

(** The record [r] places the rational [N / D]: its mantissa [m] is the
    integer part, and the round and sticky bits tell where the fraction
    lies with respect to one half. *)
Definition located (N D : Z) (r : shr_record) : Prop :=
  let m := shr_m r in
  0 <= m /\
  match shr_r r, shr_s r with
  | false, false => N = m * D
  | false, true => m * D < N /\ 2 * N < (2 * m + 1) * D
  | true, false => 2 * N = (2 * m + 1) * D
  | true, true => (2 * m + 1) * D < 2 * N /\ N < (m + 1) * D
  end.

(** After [k] one-bit shifts the record locates [N] on the grid [2^k * D]
    and its mantissa is the original one divided by [2^k]. *)
Definition shifted (N D m0 : Z) (j : Z) (r : shr_record) : Prop :=
  located N (2 ^ j * D) r /\ shr_m r = m0 / 2 ^ j.

(** The mantissa of the float64 constant [1e9]: [1e9 * 2^23]. *)
Definition m1e9 : positive := 8388608000000000.

(* ------------------------------------------------------------------ *)
(** ** The writer monad *)

Section ExecFacts.

Context {Logger : Type}.

Lemma out_app_silent_r (o : Output Logger) : out_app o silent = o.
Proof.
  destruct o as [s l]. unfold out_app, silent. cbn.
  now rewrite !app_nil_r.
Qed.

Lemma bind_sends {B : Type} (ms : list prometheus.Metric)
      (k : unit -> Exec Logger B) :
  bind (sends ms) k =
  (out_app {| sent := ms; logged := [] |} (fst (k tt)), snd (k tt)).
Proof.
  unfold bind, sends. now destruct (k tt).
Qed.

Lemma forRange_sends_in {A : Type} (f : A -> list prometheus.Metric)
      (body : A -> Exec Logger unit) (xs : list A) :
  (forall x, In x xs -> body x = sends (f x)) ->
  forRange xs body = sends (flat_map f xs).
Proof.
  induction xs as [|x rest IH]; intros Hbody; cbn [forRange flat_map].
  - reflexivity.
  - rewrite Hbody by (left; reflexivity).
    rewrite bind_sends, IH by (intros y Hy; apply Hbody; now right).
    reflexivity.
Qed.

Lemma forRange_sends {A : Type} (f : A -> list prometheus.Metric)
      (body : A -> Exec Logger unit) (xs : list A) :
  (forall x, body x = sends (f x)) ->
  forRange xs body = sends (flat_map f xs).
Proof.
  intros Hbody. apply forRange_sends_in. intros x _. apply Hbody.
Qed.

(** A loop over [xs] whose first body panics sends what that body sent
    and nothing more. *)
Lemma forRange_panics {A : Type} (body : A -> Exec Logger unit)
      (x : A) (rest : list A) (o : Output Logger) :
  body x = (o, Panicked) ->
  forRange (x :: rest) body = (o, Panicked).
Proof.
  intros H. cbn [forRange]. unfold bind. now rewrite H.
Qed.

End ExecFacts.

Lemma flat_map_if_filter {A B : Type} (p : A -> bool) (f : A -> list B)
      (xs : list A) :
  flat_map (fun x => if p x then f x else []) xs = flat_map f (filter p xs).
Proof.
  induction xs as [|x rest IH]; cbn; [reflexivity|].
  destruct (p x); cbn; now rewrite IH.
Qed.

Lemma flat_map_singleton {A B : Type} (g : A -> B) (xs : list A) :
  flat_map (fun x => [g x]) xs = map g xs.
Proof.
  induction xs as [|x rest IH]; cbn; [reflexivity | now rewrite IH].
Qed.

Lemma filter_flat_map {A B : Type} (p : B -> bool) (f : A -> list B)
      (xs : list A) :
  filter p (flat_map f xs) = flat_map (fun x => filter p (f x)) xs.
Proof.
  induction xs as [|x rest IH]; cbn; [reflexivity|].
  now rewrite filter_app, IH.
Qed.

Lemma flat_map_length_const {A B : Type} (f : A -> list B) (n : nat)
      (xs : list A) :
  (forall x, List.length (f x) = n) ->
  List.length (flat_map f xs) = (n * List.length xs)%nat.
Proof.
  intros Hn. induction xs as [|x rest IH]; cbn; [lia|].
  rewrite length_app, Hn, IH. lia.
Qed.

(* ------------------------------------------------------------------ *)
(** ** The qdisc collector *)

Section QdiscFacts.

Variable Logger : Type.
Variable namespace : string.
Variable constLabels : prometheus.Labels.
Variable json_Unmarshal : string -> list qdisc.QdiscInfo * option error.
Variable filepath_Join : string -> string -> string.

Local Abbreviation NewCollector :=
  (Qdisc.NewQdiscStatCollector Logger namespace constLabels).
Local Abbreviation Update :=
  (Qdisc.Update Logger json_Unmarshal filepath_Join).
Local Abbreviation source := (qdiscSource json_Unmarshal filepath_Join).

Lemma qdisc_Update_eq (logger : Logger) (fixtures : string) (w : World) :
  Update (fst (NewCollector logger)) fixtures w =
  qdiscEmit (fst (NewCollector logger)) (source w fixtures).
Proof.
  unfold Qdisc.Update, qdiscEmit, qdiscSource.
  destruct (if fixtures =? "" then qdisc_Get w else _)
    as [msgs [e|]]; cbn [fst snd]; [reflexivity|].
  rewrite (forRange_sends
             (fun msg => if isRoot msg
                         then qdiscCounters (fst (NewCollector logger)) msg
                         else [])).
  - rewrite bind_sends, flat_map_if_filter.
    unfold ret, out_app, silent; cbn [sent logged fst snd app].
    now rewrite app_nil_r.
  - intros msg. unfold isRoot.
    destruct (qdisc.Parent msg =? 0)%Z; reflexivity.
Qed.

Lemma qdiscCounters_length (c : Qdisc.qdiscStatCollector Logger)
      (msg : qdisc.QdiscInfo) :
  List.length (qdiscCounters c msg) = 7%nat.
Proof. reflexivity. Qed.

(** C1. Whatever the data source (live or fixture) returns, the qdisc
    collector's [Update] sends samples only for the entries whose [Parent]
    is 0: with [N] root entries and [M] other entries among the [N + M]
    fetched, it sends the seven samples of each of the [N] roots, in
    order, and nothing for the [M] children. *)
Theorem qdisc_update_reports_roots_only
        (logger : Logger) (fixtures : string) (w : World)
        (msgs : list qdisc.QdiscInfo) (N M : nat) :
  source w fixtures = (msgs, None) ->
  List.length (filter isRoot msgs) = N ->
  List.length (filter (fun msg => negb (isRoot msg)) msgs) = M ->
  let c := fst (NewCollector logger) in
  let r := Update c fixtures w in
  List.length msgs = (N + M)%nat /\
  samples r = flat_map (qdiscCounters c) (filter isRoot msgs) /\
  List.length (samples r) = (7 * N)%nat /\
  (forall msg, In msg msgs -> qdisc.Parent msg = 0%Z ->
               incl (qdiscCounters c msg) (samples r)) /\
  (forall s, In s (samples r) ->
             exists msg, In msg msgs /\ qdisc.Parent msg = 0%Z /\
                         In s (qdiscCounters c msg)) /\
  (N = 0%nat -> samples r = []).
Proof.
  intros Hsrc HN HM c r.
  assert (Hr : samples r =
               flat_map (qdiscCounters c) (filter isRoot msgs)).
  { unfold r, c. rewrite qdisc_Update_eq, Hsrc. reflexivity. }
  repeat split.
  - pose proof (filter_length isRoot msgs) as HL.
    rewrite HN, HM in HL. now symmetry.
  - exact Hr.
  - rewrite Hr, (flat_map_length_const _ 7); [lia|].
    intros x; apply qdiscCounters_length.
  - intros msg Hin Hp s Hs. rewrite Hr. apply in_flat_map.
    exists msg. split; [|exact Hs].
    apply filter_In. split; [exact Hin|].
    unfold isRoot. now apply Z.eqb_eq.
  - intros s Hs. rewrite Hr in Hs. apply in_flat_map in Hs.
    destruct Hs as (msg & Hmsg & Hs). apply filter_In in Hmsg.
    destruct Hmsg as [Hin Hroot]. exists msg. repeat split; trivial.
    unfold isRoot in Hroot. now apply Z.eqb_eq.
  - intros HN0. rewrite Hr. subst N.
    apply length_zero_iff_nil in HN0. now rewrite HN0.
Qed.

(** C2. When the data source yields one root entry on eth0 of kind pfifo
    with Bytes 1000, Packets 10, Drops 0, Requeues 0, Overlimits 0, Qlen 5
    and Backlog 200, among any number of entries with a non-zero [Parent],
    [Update] sends exactly seven samples, labelled device eth0 and kind
    pfifo, of values 1000, 10, 0, 0, 0, 5, 200 in the bytes, packets,
    drops, requeues, overlimits, queue-length and backlog series, and
    nothing for the other entries. The values are given three ways: as
    rationals, as the floats [float64(1000)], ..., and as the bits of those
    floats (finite, the three zeros being +0). *)
Theorem qdisc_update_pfifo_scenario
        (logger : Logger) (fixtures : string) (w : World)
        (before after : list qdisc.QdiscInfo) (handle : Z) :
  let e := {| qdisc.IfaceName := "eth0"; qdisc.Parent := 0;
              qdisc.Handle := handle; qdisc.Kind := "pfifo";
              qdisc.Bytes := 1000; qdisc.Packets := 10; qdisc.Drops := 0;
              qdisc.Requeues := 0; qdisc.Overlimits := 0; qdisc.Qlen := 5;
              qdisc.Backlog := 200 |} in
  Forall (fun msg => qdisc.Parent msg <> 0%Z) before ->
  Forall (fun msg => qdisc.Parent msg <> 0%Z) after ->
  source w fixtures = (before ++ e :: after, None) ->
  let r := Update (fst (NewCollector logger)) fixtures w in
  let fq := prometheus.BuildFQName namespace "qdisc" in
  List.length (samples r) = 7%nat /\
  map (fun m => (prometheus.fqName (prometheus.desc m),
                 prometheus.variableLabels (prometheus.desc m),
                 prometheus.labelValues m,
                 Qred (Float64.toQ (prometheus.value m))))
      (samples r) =
  [ (fq "bytes_total", ["device"; "kind"], ["eth0"; "pfifo"], 1000%Q);
    (fq "packets_total", ["device"; "kind"], ["eth0"; "pfifo"], 10%Q);
    (fq "drops_total", ["device"; "kind"], ["eth0"; "pfifo"], 0%Q);
    (fq "requeues_total", ["device"; "kind"], ["eth0"; "pfifo"], 0%Q);
    (fq "overlimits_total", ["device"; "kind"], ["eth0"; "pfifo"], 0%Q);
    (fq "current_queue_length", ["device"; "kind"], ["eth0"; "pfifo"], 5%Q);
    (fq "backlog", ["device"; "kind"], ["eth0"; "pfifo"], 200%Q) ] /\
  result r = Returned None /\
  map prometheus.value (samples r) =
  map Float64.of_int [1000; 10; 0; 0; 0; 5; 200]%Z /\
  map prometheus.value (samples r) =
  [ S754_finite false 8796093022208000 (-43);
    S754_finite false 5629499534213120 (-49);
    S754_zero false; S754_zero false; S754_zero false;
    S754_finite false 5629499534213120 (-50);
    S754_finite false 7036874417766400 (-45) ] /\
  Forall (fun m => Float64.is_finite (prometheus.value m) = true)
         (samples r).
Proof.
  intros e Hb Ha Hsrc r fq.
  assert (Hnone : forall l, Forall (fun msg => qdisc.Parent msg <> 0%Z) l ->
                            filter isRoot l = []).
  { intros l Hl. induction Hl as [|x l Hx _ IH]; cbn; [reflexivity|].
    unfold isRoot at 1. apply Z.eqb_neq in Hx. now rewrite Hx. }
  assert (Hr : r = ({| sent := qdiscCounters (fst (NewCollector logger)) e;
                       logged := [] |}, Returned None)).
  { unfold r. rewrite qdisc_Update_eq, Hsrc. unfold qdiscEmit.
    cbn [fst snd]. rewrite filter_app. cbn [filter].
    rewrite (Hnone _ Hb), (Hnone _ Ha).
    change (isRoot e) with true. cbn [app flat_map].
    now rewrite app_nil_r. }
  rewrite Hr. unfold samples, result. cbn [fst snd sent].
  repeat split. repeat constructor.
Qed.

(** C5. The fixture flag only selects the fetch function: [Update] is
    one emission function applied to whatever was fetched, so a fixture
    run whose reader returns what the live source returns sends the same
    samples, in the same order, and ends the same way as the live run. *)
Theorem qdisc_fixture_live_equivalence
        (logger : Logger) (fixtures : string) (w_fixture w_live : World) :
  fixtures <> "" ->
  Qdisc.testQdiscGet json_Unmarshal filepath_Join w_fixture fixtures =
  qdisc_Get w_live ->
  let c := fst (NewCollector logger) in
  Update c fixtures w_fixture = Update c "" w_live /\
  samples (Update c fixtures w_fixture) = samples (Update c "" w_live) /\
  Update c fixtures w_fixture =
  qdiscEmit c (Qdisc.testQdiscGet json_Unmarshal filepath_Join
                                  w_fixture fixtures) /\
  Update c "" w_live = qdiscEmit c (qdisc_Get w_live).
Proof.
  intros Hfix Hsame c.
  apply String.eqb_neq in Hfix.
  assert (H1 : Update c fixtures w_fixture =
               qdiscEmit c (Qdisc.testQdiscGet json_Unmarshal filepath_Join
                                               w_fixture fixtures)).
  { unfold c. rewrite qdisc_Update_eq. unfold qdiscSource.
    now rewrite Hfix. }
  assert (H2 : Update c "" w_live = qdiscEmit c (qdisc_Get w_live)).
  { unfold c. now rewrite qdisc_Update_eq. }
  repeat split; trivial.
  - now rewrite H1, H2, Hsame.
  - now rewrite H1, H2, Hsame.
Qed.

(** C6. With the fixture flag set, [Update] depends on the machine only
    through the content of results.json in the fixture directory: two
    calls that read the same content send the same samples, with the same
    values and labels, in the same order. *)
Theorem qdisc_fixture_deterministic
        (logger : Logger) (fixtures : string) (w1 w2 : World) :
  fixtures <> "" ->
  ioutil_ReadFile w1 (filepath_Join fixtures "results.json") =
  ioutil_ReadFile w2 (filepath_Join fixtures "results.json") ->
  let c := fst (NewCollector logger) in
  Update c fixtures w1 = Update c fixtures w2 /\
  samples (Update c fixtures w1) = samples (Update c fixtures w2).
Proof.
  intros Hfix Hfile c.
  apply String.eqb_neq in Hfix.
  assert (H : Update c fixtures w1 = Update c fixtures w2).
  { unfold c. rewrite !qdisc_Update_eq. unfold qdiscSource.
    rewrite Hfix. unfold Qdisc.testQdiscGet. now rewrite Hfile. }
  split; [exact H | now rewrite H].
Qed.

End QdiscFacts.

(* ------------------------------------------------------------------ *)
(** ** The diskstats collector *)

Lemma append_inv_head (p a b : string) :
  (p ++ a = p ++ b)%string -> a = b.
Proof.
  induction p as [|ch p IH]; cbn; intros H; [exact H|].
  injection H as H. now apply IH.
Qed.

Lemma BuildFQName_inj (namespace subsystem a b : string) :
  a <> "" -> b <> "" ->
  prometheus.BuildFQName namespace subsystem a =
  prometheus.BuildFQName namespace subsystem b ->
  a = b.
Proof.
  intros Ha Hb. unfold prometheus.BuildFQName.
  apply String.eqb_neq in Ha, Hb. rewrite Ha, Hb.
  destruct (prometheus.nonEmpty namespace && prometheus.nonEmpty subsystem).
  - intros H. apply append_inv_head in H.
    apply (append_inv_head "_") in H.
    apply append_inv_head in H. now apply (append_inv_head "_") in H.
  - destruct (prometheus.nonEmpty namespace).
    + intros H. apply append_inv_head in H.
      now apply (append_inv_head "_") in H.
    + destruct (prometheus.nonEmpty subsystem); [|trivial].
      intros H. apply append_inv_head in H.
      now apply (append_inv_head "_") in H.
Qed.

(** Two different non-empty metric names give different series. *)
Lemma BuildFQName_eqb (namespace subsystem a b : string) :
  a <> "" -> b <> "" ->
  (prometheus.BuildFQName namespace subsystem a =?
   prometheus.BuildFQName namespace subsystem b)%string = (a =? b)%string.
Proof.
  intros Ha Hb. destruct (a =? b)%string eqn:E.
  - apply String.eqb_eq in E. subst b. apply String.eqb_refl.
  - apply String.eqb_neq. intros H. apply String.eqb_neq in E. apply E.
    now apply (BuildFQName_inj namespace subsystem).
Qed.

Section DiskstatsFacts.

Variable Logger : Type.
Variable namespace : string.
Variable diskSubsystem : string.
Variable diskLabelNames : list string.
Variable constLabels : prometheus.Labels.

Local Abbreviation NewCollector :=
  (Diskstats.NewDiskstatsCollector Logger namespace diskSubsystem
                                   diskLabelNames constLabels).
Local Abbreviation Update := (Diskstats.Update Logger).

Lemma diskstats_descs_labels (logger : Logger) (d : Diskstats.typedDescFunc) :
  In d (Diskstats.descs _ (fst (NewCollector logger))) ->
  prometheus.variableLabels (Collector.desc (Diskstats.typedDesc d)) =
  diskLabelNames /\
  Collector.valueType (Diskstats.typedDesc d) = prometheus.CounterValue.
Proof.
  cbn [fst Diskstats.NewDiskstatsCollector Diskstats.descs In].
  intros H.
  repeat (destruct H as [H|H]; [subst d; split; reflexivity|]).
  contradiction.
Qed.

(** With one label name declared, a call sends all the counters of every
    fetched drive. *)
Lemma diskstats_Update_eq (logger : Logger) (w : World) :
  List.length diskLabelNames = 1%nat ->
  Update (fst (NewCollector logger)) w =
  match snd (iostat_ReadDriveStats w) with
  | Some e => ret (Some (fmt_Errorf_w "couldn't get diskstats: " e))
  | None =>
    ({| sent := flat_map (driveCounters (fst (NewCollector logger)))
                         (fst (iostat_ReadDriveStats w));
        logged := [] |}, Returned None)
  end.
Proof.
  intros Hlen. unfold Diskstats.Update.
  destruct (iostat_ReadDriveStats w) as [diskStats [e|]]; cbn [fst snd];
    [reflexivity|].
  rewrite (forRange_sends (driveCounters (fst (NewCollector logger)))).
  - rewrite bind_sends.
    unfold ret, out_app, silent; cbn [sent logged fst snd app].
    now rewrite app_nil_r.
  - intros stats.
    rewrite (forRange_sends_in
               (fun d => [observe (Diskstats.typedDesc d)
                                  (Diskstats.value d stats)
                                  [iostat.Name stats]])).
    + unfold driveCounters. now rewrite flat_map_singleton.
    + intros d Hd. apply diskstats_descs_labels in Hd.
      destruct Hd as [Hlab _].
      unfold Collector.mustNewConstMetric, MustNewConstMetric.
      rewrite Hlab, Hlen. reflexivity.
Qed.

(** When the declared label names are not exactly one, the first sample of
    the first drive already panics: nothing is sent. *)
Lemma diskstats_Update_mismatch (logger : Logger) (w : World) :
  List.length diskLabelNames <> 1%nat ->
  samples (Update (fst (NewCollector logger)) w) = [].
Proof.
  intros Hlen. unfold Diskstats.Update, samples.
  destruct (iostat_ReadDriveStats w) as [[|stats rest] [e|]];
    try reflexivity.
  rewrite (forRange_panics _ _ _ silent); [reflexivity|].
  apply forRange_panics.
  unfold Collector.mustNewConstMetric, MustNewConstMetric.
  cbn [Diskstats.typedDesc Collector.desc prometheus.variableLabels
       prometheus.NewDesc List.length].
  destruct (Nat.eqb_spec 1 (List.length diskLabelNames)) as [E|E];
    [now rewrite <- E in Hlen | reflexivity].
Qed.

Lemma diskstats_read_sectors_series (logger : Logger)
      (st : iostat.DriveStats) :
  map (fun m => (prometheus.labelValues m, prometheus.value m))
      (series (prometheus.BuildFQName namespace diskSubsystem
                                      "read_sectors_total")
              (driveCounters (fst (NewCollector logger)) st)) =
  [([iostat.Name st],
    Float64.div (Float64.of_int (iostat.NumRead st))
                (Float64.of_int (iostat.BlockSize st)))].
Proof.
  unfold series, driveCounters.
  cbn [fst Diskstats.NewDiskstatsCollector Diskstats.descs map filter
       observe prometheus.desc Collector.desc prometheus.fqName
       prometheus.NewDesc Diskstats.typedDesc].
  rewrite !BuildFQName_eqb by discriminate.
  reflexivity.
Qed.

Lemma diskstats_written_sectors_series (logger : Logger)
      (st : iostat.DriveStats) :
  map (fun m => (prometheus.labelValues m, prometheus.value m))
      (series (prometheus.BuildFQName namespace diskSubsystem
                                      "written_sectors_total")
              (driveCounters (fst (NewCollector logger)) st)) =
  [([iostat.Name st],
    Float64.div (Float64.of_int (iostat.NumWrite st))
                (Float64.of_int (iostat.BlockSize st)))].
Proof.
  unfold series, driveCounters.
  cbn [fst Diskstats.NewDiskstatsCollector Diskstats.descs map filter
       observe prometheus.desc Collector.desc prometheus.fqName
       prometheus.NewDesc Diskstats.typedDesc].
  rewrite !BuildFQName_eqb by discriminate.
  reflexivity.
Qed.

(** C9. For every fetched drive the read_sectors_total series receives one
    sample of value [NumRead / BlockSize] and the written_sectors_total
    series one sample of value [NumWrite / BlockSize], both float64
    divisions of the operation counts (not of the byte counts) by the
    block size. *)
Theorem diskstats_sector_values
        (logger : Logger) (w : World) (stats : list iostat.DriveStats) :
  List.length diskLabelNames = 1%nat ->
  iostat_ReadDriveStats w = (stats, None) ->
  let r := Update (fst (NewCollector logger)) w in
  let fq := prometheus.BuildFQName namespace diskSubsystem in
  map (fun m => (prometheus.labelValues m, prometheus.value m))
      (series (fq "read_sectors_total") (samples r)) =
  map (fun st => ([iostat.Name st],
                  Float64.div (Float64.of_int (iostat.NumRead st))
                              (Float64.of_int (iostat.BlockSize st))))
      stats /\
  map (fun m => (prometheus.labelValues m, prometheus.value m))
      (series (fq "written_sectors_total") (samples r)) =
  map (fun st => ([iostat.Name st],
                  Float64.div (Float64.of_int (iostat.NumWrite st))
                              (Float64.of_int (iostat.BlockSize st))))
      stats.
Proof.
  intros Hlen Hfetch r fq.
  assert (Hr : samples r =
               flat_map (driveCounters (fst (NewCollector logger))) stats).
  { unfold r. rewrite diskstats_Update_eq, Hfetch by exact Hlen.
    reflexivity. }
  rewrite Hr. clear Hr Hfetch r. unfold fq.
  split; induction stats as [|st rest IH]; try reflexivity;
    cbn [flat_map map]; unfold series in *;
    rewrite filter_app, map_app, IH.
  - pose proof (diskstats_read_sectors_series logger st) as H.
    unfold series in H. now rewrite H.
  - pose proof (diskstats_written_sectors_series logger st) as H.
    unfold series in H. now rewrite H.
Qed.

End DiskstatsFacts.

(* ------------------------------------------------------------------ *)
(** ** Properties shared by the collectors *)

Section CollectorFacts.

Variable Logger : Type.
Variable namespace : string.
Variable diskSubsystem : string.
Variable diskLabelNames : list string.
Variable constLabels : prometheus.Labels.
Variable json_Unmarshal : string -> list qdisc.QdiscInfo * option error.
Variable filepath_Join : string -> string -> string.

Local Abbreviation NewQdisc :=
  (Qdisc.NewQdiscStatCollector Logger namespace constLabels).
Local Abbreviation QdiscUpdate :=
  (Qdisc.Update Logger json_Unmarshal filepath_Join).
Local Abbreviation source := (qdiscSource json_Unmarshal filepath_Join).
Local Abbreviation NewDiskstats :=
  (Diskstats.NewDiskstatsCollector Logger namespace diskSubsystem
                                   diskLabelNames constLabels).
Local Abbreviation DiskstatsUpdate := (Diskstats.Update Logger).

Lemma qdisc_samples_eq (logger : Logger) (fixtures : string) (w : World) :
  samples (QdiscUpdate (fst (NewQdisc logger)) fixtures w) =
  match snd (source w fixtures) with
  | Some _ => []
  | None => flat_map (qdiscCounters (fst (NewQdisc logger)))
                     (filter isRoot (fst (source w fixtures)))
  end.
Proof.
  rewrite qdisc_Update_eq. unfold qdiscEmit.
  now destruct (snd (qdiscSource _ _ w fixtures)).
Qed.

Lemma diskstats_samples_eq (logger : Logger) (w : World) :
  List.length diskLabelNames = 1%nat ->
  samples (DiskstatsUpdate (fst (NewDiskstats logger)) w) =
  match snd (iostat_ReadDriveStats w) with
  | Some _ => []
  | None => flat_map (driveCounters (fst (NewDiskstats logger)))
                     (fst (iostat_ReadDriveStats w))
  end.
Proof.
  intros Hlen. rewrite diskstats_Update_eq by exact Hlen.
  now destruct (snd (iostat_ReadDriveStats w)).
Qed.

(** C3. Every entity a call reads gets all of its declared counters in
    that call: what the diskstats collector sends is the twelve samples of
    each fetched drive, drive after drive, and what the qdisc collector
    sends is the seven samples of each root entry; a call that fails sends
    nothing. So no call sends a strict non-empty part of an entity's
    counters. *)
Theorem update_sends_whole_entities
        (logger : Logger) (fixtures : string) (w : World) :
  List.length diskLabelNames = 1%nat ->
  let dc := fst (NewDiskstats logger) in
  let qc := fst (NewQdisc logger) in
  (List.length (Diskstats.descs _ dc) = 12%nat /\
   forall st,
     map prometheus.desc (driveCounters dc st) =
     map (fun d => Collector.desc (Diskstats.typedDesc d))
         (Diskstats.descs _ dc)) /\
  (List.length (qdiscDeclared qc) = 7%nat /\
   forall msg,
     map prometheus.desc (qdiscCounters qc msg) =
     map Collector.desc (qdiscDeclared qc)) /\
  (exists drives,
     samples (DiskstatsUpdate dc w) = flat_map (driveCounters dc) drives /\
     (snd (iostat_ReadDriveStats w) = None ->
      drives = fst (iostat_ReadDriveStats w)) /\
     (snd (iostat_ReadDriveStats w) <> None -> drives = [])) /\
  (exists entries,
     samples (QdiscUpdate qc fixtures w) =
     flat_map (qdiscCounters qc) entries /\
     (snd (source w fixtures) = None ->
      entries = filter isRoot (fst (source w fixtures))) /\
     (snd (source w fixtures) <> None -> entries = [])).
Proof.
  intros Hlen dc qc. split; [|split; [|split]].
  - split; [reflexivity|]. intros st. unfold driveCounters.
    rewrite map_map. reflexivity.
  - split; reflexivity.
  - unfold dc. rewrite diskstats_samples_eq by exact Hlen.
    destruct (snd (iostat_ReadDriveStats w)) as [e|].
    + exists []. repeat split; congruence.
    + exists (fst (iostat_ReadDriveStats w)). repeat split; congruence.
  - unfold qc. rewrite qdisc_samples_eq.
    destruct (snd (source w fixtures)) as [e|].
    + exists []. repeat split; congruence.
    + exists (filter isRoot (fst (source w fixtures))).
      repeat split; congruence.
Qed.

(** C4. [Update] returns an error exactly when its fetch fails, and then
    it has sent nothing; when the fetch succeeds it returns nil. For the
    qdisc collector the fetch is the live call or, with the fixture flag,
    reading results.json and decoding it; for the diskstats collector it
    is [iostat.ReadDriveStats]. *)
Theorem update_fails_iff_fetch_fails
        (logger : Logger) (fixtures : string) (w : World) :
  List.length diskLabelNames = 1%nat ->
  let qr := QdiscUpdate (fst (NewQdisc logger)) fixtures w in
  let dr := DiskstatsUpdate (fst (NewDiskstats logger)) w in
  let path := filepath_Join fixtures "results.json" in
  let fetch_err :=
    if fixtures =? "" then snd (qdisc_Get w)
    else match snd (ioutil_ReadFile w path) with
         | Some e => Some e
         | None => snd (json_Unmarshal (fst (ioutil_ReadFile w path)))
         end in
  (result qr = Returned fetch_err /\
   (returnsError qr <-> fetch_err <> None) /\
   (returnsNil qr <-> fetch_err = None) /\
   (returnsError qr -> samples qr = [])) /\
  (result dr =
   Returned (option_map (fmt_Errorf_w "couldn't get diskstats: ")
                        (snd (iostat_ReadDriveStats w))) /\
   (returnsError dr <-> snd (iostat_ReadDriveStats w) <> None) /\
   (returnsNil dr <-> snd (iostat_ReadDriveStats w) = None) /\
   (returnsError dr -> samples dr = [])).
Proof.
  intros Hlen qr dr path fetch_err.
  assert (Hsrc : snd (source w fixtures) = fetch_err).
  { unfold fetch_err, qdiscSource, Qdisc.testQdiscGet, path.
    destruct (fixtures =? ""); [reflexivity|].
    destruct (ioutil_ReadFile w _) as [b [e|]]; reflexivity. }
  split.
  - assert (Hres : result qr = Returned fetch_err).
    { unfold qr. rewrite qdisc_Update_eq, <- Hsrc. unfold qdiscEmit.
      now destruct (snd (source w fixtures)). }
    assert (Hsam : fetch_err <> None -> samples qr = []).
    { unfold qr. rewrite qdisc_samples_eq, Hsrc.
      now destruct fetch_err. }
    unfold returnsError, returnsNil. rewrite Hres.
    repeat split.
    + intros [e He] Hn. rewrite Hn in He. discriminate.
    + intros Hn. destruct fetch_err as [e|]; [now exists e | contradiction].
    + intros H. now injection H.
    + intros H. now rewrite H.
    + intros [e He]. apply Hsam. injection He as He. now rewrite He.
  - assert (Hres : result dr =
                   Returned (option_map
                               (fmt_Errorf_w "couldn't get diskstats: ")
                               (snd (iostat_ReadDriveStats w)))).
    { unfold dr. rewrite diskstats_Update_eq by exact Hlen.
      now destruct (snd (iostat_ReadDriveStats w)). }
    assert (Hsam : snd (iostat_ReadDriveStats w) <> None ->
                   samples dr = []).
    { unfold dr. rewrite diskstats_samples_eq by exact Hlen.
      now destruct (snd (iostat_ReadDriveStats w)). }
    unfold returnsError, returnsNil. rewrite Hres.
    destruct (snd (iostat_ReadDriveStats w)) as [e0|]; cbn [option_map] in *.
    + repeat split; try discriminate; try (intros; now apply Hsam);
        try (intros _; eexists; reflexivity).
    + repeat split; try congruence;
        try (intros [e He]; discriminate He).
Qed.

(** C8. Every sample of a cycle carries as many label values as its
    descriptor declares label names, in the declared order: a qdisc sample
    carries the interface name and the kind of its entry for the names
    device and kind, a diskstats sample carries the one drive name for the
    one declared name. *)
Theorem samples_label_consistent
        (logger : Logger) (fixtures : string) (w : World) :
  let qr := QdiscUpdate (fst (NewQdisc logger)) fixtures w in
  let dr := DiskstatsUpdate (fst (NewDiskstats logger)) w in
  (forall s, In s (samples qr) ->
     prometheus.variableLabels (prometheus.desc s) = ["device"; "kind"] /\
     List.length (prometheus.labelValues s) =
     List.length (prometheus.variableLabels (prometheus.desc s)) /\
     exists msg, In msg (fst (source w fixtures)) /\
                 prometheus.labelValues s =
                 [qdisc.IfaceName msg; qdisc.Kind msg]) /\
  (forall s, In s (samples dr) ->
     prometheus.variableLabels (prometheus.desc s) = diskLabelNames /\
     List.length (prometheus.labelValues s) =
     List.length (prometheus.variableLabels (prometheus.desc s)) /\
     List.length (prometheus.labelValues s) = 1%nat /\
     exists st, In st (fst (iostat_ReadDriveStats w)) /\
                prometheus.labelValues s = [iostat.Name st]).
Proof.
  intros qr dr. split; intros s Hs.
  - unfold qr in Hs. rewrite qdisc_samples_eq in Hs.
    destruct (snd (source w fixtures)); [contradiction|].
    apply in_flat_map in Hs. destruct Hs as (msg & Hmsg & Hs).
    apply filter_In in Hmsg. destruct Hmsg as [Hmsg _].
    cbn [qdiscCounters In] in Hs.
    repeat (destruct Hs as [Hs|Hs];
            [subst s; repeat split; exists msg; now split|]).
    contradiction.
  - destruct (Nat.eq_dec (List.length diskLabelNames) 1) as [Hlen|Hlen].
    + unfold dr in Hs. rewrite diskstats_samples_eq in Hs by exact Hlen.
      destruct (snd (iostat_ReadDriveStats w)); [contradiction|].
      apply in_flat_map in Hs. destruct Hs as (st & Hst & Hs).
      unfold driveCounters in Hs. apply in_map_iff in Hs.
      destruct Hs as (d & Hd & Hin). apply diskstats_descs_labels in Hin.
      destruct Hin as [Hlab _]. subst s.
      cbn [observe prometheus.desc prometheus.labelValues List.length].
      rewrite Hlab, Hlen. repeat split. now exists st.
    + unfold dr in Hs. rewrite diskstats_Update_mismatch in Hs by exact Hlen.
      contradiction.
Qed.

(** C10. The qdisc collector sends its bytes_total, packets_total,
    drops_total, requeues_total and overlimits_total samples as counters
    and its current_queue_length and backlog samples as gauges; every
    diskstats sample, of any of the twelve metrics, is a counter. *)
Theorem metric_kinds (logger : Logger) (fixtures : string) (w : World) :
  let qc := fst (NewQdisc logger) in
  let dc := fst (NewDiskstats logger) in
  let fq := prometheus.BuildFQName namespace "qdisc" in
  let counters := map fq ["bytes_total"; "packets_total"; "drops_total";
                          "requeues_total"; "overlimits_total"] in
  let gauges := map fq ["current_queue_length"; "backlog"] in
  map (fun d => (prometheus.fqName (Collector.desc d), Collector.valueType d))
      (qdiscDeclared qc) =
  [ (fq "bytes_total", prometheus.CounterValue);
    (fq "packets_total", prometheus.CounterValue);
    (fq "drops_total", prometheus.CounterValue);
    (fq "requeues_total", prometheus.CounterValue);
    (fq "overlimits_total", prometheus.CounterValue);
    (fq "current_queue_length", prometheus.GaugeValue);
    (fq "backlog", prometheus.GaugeValue) ] /\
  (forall s, In s (samples (QdiscUpdate qc fixtures w)) ->
     In (prometheus.fqName (prometheus.desc s)) (counters ++ gauges) /\
     (In (prometheus.fqName (prometheus.desc s)) counters ->
      prometheus.valType s = prometheus.CounterValue) /\
     (In (prometheus.fqName (prometheus.desc s)) gauges ->
      prometheus.valType s = prometheus.GaugeValue)) /\
  List.length (Diskstats.descs _ dc) = 12%nat /\
  Forall (fun d => Collector.valueType (Diskstats.typedDesc d) =
                   prometheus.CounterValue)
         (Diskstats.descs _ dc) /\
  (forall s, In s (samples (DiskstatsUpdate dc w)) ->
     prometheus.valType s = prometheus.CounterValue).
Proof.
  intros qc dc fq counters gauges.
  split; [reflexivity|]. split; [|split; [reflexivity|split]].
  - intros s Hs. unfold qc in Hs. rewrite qdisc_samples_eq in Hs.
    destruct (snd (source w fixtures)); [contradiction|].
    apply in_flat_map in Hs. destruct Hs as (msg & _ & Hs).
    cbn [qdiscCounters In] in Hs.
    repeat (destruct Hs as [Hs|Hs];
      [subst s; split; [cbn; tauto|];
       split; intros H; try reflexivity; exfalso;
       cbn [counters gauges map In observe prometheus.desc
            prometheus.fqName Collector.desc Qdisc.bytes Qdisc.packets
            Qdisc.drops Qdisc.requeues Qdisc.overlimits Qdisc.qlength
            Qdisc.backlog Qdisc.NewQdiscStatCollector fst
            prometheus.NewDesc] in H;
       repeat (destruct H as [H|H];
               [apply BuildFQName_inj in H; discriminate|]);
       exact H|]).
    contradiction.
  - apply Forall_forall. intros d Hd.
    now apply diskstats_descs_labels in Hd.
  - intros s Hs.
    destruct (Nat.eq_dec (List.length diskLabelNames) 1) as [Hlen|Hlen].
    + unfold dc in Hs. rewrite diskstats_samples_eq in Hs by exact Hlen.
      destruct (snd (iostat_ReadDriveStats w)); [contradiction|].
      apply in_flat_map in Hs. destruct Hs as (st & _ & Hs).
      unfold driveCounters in Hs. apply in_map_iff in Hs.
      destruct Hs as (d & Hd & Hin). apply diskstats_descs_labels in Hin.
      subst s. now destruct Hin.
    + unfold dc in Hs. rewrite diskstats_Update_mismatch in Hs by exact Hlen.
      contradiction.
Qed.

End CollectorFacts.

(* ------------------------------------------------------------------ *)
(** ** The theorems on the concrete machine *)

Lemma qdisc_update_reports_roots_only_witness :
  List.length
    (samples (Qdisc.Update unit Example.json_Unmarshal Example.filepath_Join
                (fst (Qdisc.NewQdiscStatCollector
                        unit Example.namespace Example.constLabels tt))
                "" Example.machine)) = 7%nat.
Proof.
  exact (proj1 (proj2 (proj2
    (qdisc_update_reports_roots_only
       unit Example.namespace Example.constLabels
       Example.json_Unmarshal Example.filepath_Join tt "" Example.machine
       [Example.root_entry; Example.child_entry] 1 1
       eq_refl eq_refl eq_refl)))).
Defined.

Lemma qdisc_update_pfifo_scenario_witness :
  List.length
    (samples (Qdisc.Update unit Example.json_Unmarshal Example.filepath_Join
                (fst (Qdisc.NewQdiscStatCollector
                        unit Example.namespace Example.constLabels tt))
                "fixtures/qdisc" Example.machine)) = 7%nat.
Proof.
  refine (proj1
    (qdisc_update_pfifo_scenario
       unit Example.namespace Example.constLabels
       Example.json_Unmarshal Example.filepath_Join tt "fixtures/qdisc"
       Example.machine [] [Example.child_entry] 65536 _ _ eq_refl)).
  - constructor.
  - constructor; [discriminate | constructor].
Defined.

Lemma qdisc_fixture_live_equivalence_witness :
  Qdisc.Update unit Example.json_Unmarshal Example.filepath_Join
    (fst (Qdisc.NewQdiscStatCollector
            unit Example.namespace Example.constLabels tt))
    "fixtures/qdisc" Example.machine =
  Qdisc.Update unit Example.json_Unmarshal Example.filepath_Join
    (fst (Qdisc.NewQdiscStatCollector
            unit Example.namespace Example.constLabels tt))
    "" Example.machine.
Proof.
  refine (proj1
    (qdisc_fixture_live_equivalence
       unit Example.namespace Example.constLabels
       Example.json_Unmarshal Example.filepath_Join tt "fixtures/qdisc"
       Example.machine Example.machine _ eq_refl)).
  discriminate.
Defined.

Lemma qdisc_fixture_deterministic_witness :
  Qdisc.Update unit Example.json_Unmarshal Example.filepath_Join
    (fst (Qdisc.NewQdiscStatCollector
            unit Example.namespace Example.constLabels tt))
    "fixtures/qdisc" Example.machine =
  Qdisc.Update unit Example.json_Unmarshal Example.filepath_Join
    (fst (Qdisc.NewQdiscStatCollector
            unit Example.namespace Example.constLabels tt))
    "fixtures/qdisc" Example.machine_later.
Proof.
  refine (proj1
    (qdisc_fixture_deterministic
       unit Example.namespace Example.constLabels
       Example.json_Unmarshal Example.filepath_Join tt "fixtures/qdisc"
       Example.machine Example.machine_later _ eq_refl)).
  discriminate.
Defined.

Lemma diskstats_sector_values_witness :
  map (fun m => (prometheus.labelValues m, prometheus.value m))
      (series "node_disk_read_sectors_total"
         (samples (Diskstats.Update unit
            (fst (Diskstats.NewDiskstatsCollector
                    unit Example.namespace Example.diskSubsystem
                    Example.diskLabelNames Example.constLabels tt))
            Example.machine))) =
  [(["disk0"], Float64.div (Float64.of_int 2000) (Float64.of_int 4096))].
Proof.
  exact (proj1
    (diskstats_sector_values
       unit Example.namespace Example.diskSubsystem Example.diskLabelNames
       Example.constLabels tt Example.machine [Example.disk0]
       eq_refl eq_refl)).
Defined.

Lemma update_sends_whole_entities_witness :
  exists drives,
    samples (Diskstats.Update unit
       (fst (Diskstats.NewDiskstatsCollector
               unit Example.namespace Example.diskSubsystem
               Example.diskLabelNames Example.constLabels tt))
       Example.machine) =
    flat_map (driveCounters
       (fst (Diskstats.NewDiskstatsCollector
               unit Example.namespace Example.diskSubsystem
               Example.diskLabelNames Example.constLabels tt))) drives /\
    drives = [Example.disk0].
Proof.
  destruct (proj1 (proj2 (proj2
    (update_sends_whole_entities
       unit Example.namespace Example.diskSubsystem Example.diskLabelNames
       Example.constLabels Example.json_Unmarshal Example.filepath_Join
       tt "" Example.machine eq_refl)))) as (drives & Hs & Hok & _).
  exists drives. split; [exact Hs | exact (Hok eq_refl)].
Defined.

Lemma update_fails_iff_fetch_fails_witness :
  returnsError
    (Diskstats.Update unit
       (fst (Diskstats.NewDiskstatsCollector
               unit Example.namespace Example.diskSubsystem
               Example.diskLabelNames Example.constLabels tt))
       Example.machine_later) /\
  returnsNil
    (Qdisc.Update unit Example.json_Unmarshal Example.filepath_Join
       (fst (Qdisc.NewQdiscStatCollector
               unit Example.namespace Example.constLabels tt))
       "fixtures/qdisc" Example.machine_later).
Proof.
  destruct (update_fails_iff_fetch_fails
       unit Example.namespace Example.diskSubsystem Example.diskLabelNames
       Example.constLabels Example.json_Unmarshal Example.filepath_Join
       tt "fixtures/qdisc" Example.machine_later eq_refl)
    as [(_ & _ & Hq & _) (_ & Hd & _)].
  split.
  - apply Hd. discriminate.
  - apply Hq. reflexivity.
Defined.

(* ------------------------------------------------------------------ *)
(** ** float64 conversion and division *)

Lemma digits2_pos_bounds (p : positive) :
  2 ^ (Zpos (digits2_pos p) - 1) <= Zpos p < 2 ^ Zpos (digits2_pos p).
Proof.
  induction p as [p IH|p IH|]; cbn [digits2_pos].
  - rewrite Pos2Z.inj_succ.
    replace (Z.succ (Zpos (digits2_pos p)) - 1) with (Z.succ (Zpos (digits2_pos p) - 1)) by lia.
    rewrite !Z.pow_succ_r by lia. lia.
  - rewrite Pos2Z.inj_succ.
    replace (Z.succ (Zpos (digits2_pos p)) - 1) with (Z.succ (Zpos (digits2_pos p) - 1)) by lia.
    rewrite !Z.pow_succ_r by lia. lia.
  - cbn. lia.
Qed.

Lemma Zdigits2_unique (n a : Z) :
  2 ^ (a - 1) <= n < 2 ^ a -> 0 < a -> Zdigits2 n = a.
Proof.
  intros [Hlo Hhi] Ha.
  assert (0 < n) by (pose proof (Z.pow_pos_nonneg 2 (a - 1)); lia).
  destruct n as [|p|p]; try lia. cbn [Zdigits2].
  pose proof (digits2_pos_bounds p) as [Hl Hh].
  set (d := Zpos (digits2_pos p)) in *.
  assert (0 < d) by (unfold d; lia).
  destruct (Z.lt_trichotomy d a) as [Hlt|[Heq|Hgt]]; [|exact Heq|].
  - assert (2 ^ d <= 2 ^ (a - 1)) by (apply Z.pow_le_mono_r; lia). lia.
  - assert (2 ^ a <= 2 ^ (d - 1)) by (apply Z.pow_le_mono_r; lia). lia.
Qed.

Lemma Zdigits2_bounds (n : Z) :
  0 < n -> 2 ^ (Zdigits2 n - 1) <= n < 2 ^ Zdigits2 n /\ 0 < Zdigits2 n.
Proof.
  destruct n as [|p|p]; try lia. intros _. cbn [Zdigits2].
  split; [apply digits2_pos_bounds | lia].
Qed.


Lemma shr_1_located (N D : Z) (r : shr_record) :
  0 < D -> located N D r -> located N (2 * D) (shr_1 r).
Proof.
  intros HD. destruct r as [m rb sb]. unfold located. cbn [shr_m shr_r shr_s].
  intros [Hm H].
  destruct m as [|[p|p|]|p]; try lia; destruct rb, sb; cbn [shr_1 orb shr_m shr_r shr_s];
    (split; [lia|]); try lia.
Qed.

Lemma shr_1_m (r : shr_record) :
  0 <= shr_m r -> shr_m (shr_1 r) = shr_m r / 2.
Proof.
  destruct r as [m rb sb]. cbn [shr_m]. intros Hm.
  destruct m as [|[p|p|]|p]; try lia; cbn [shr_1 shr_m].
  - reflexivity.
  - rewrite Pos2Z.inj_xI. apply Z.div_unique with 1; lia.
  - rewrite Pos2Z.inj_xO. apply Z.div_unique with 0; lia.
  - reflexivity.
Qed.

Section IterPos.

Context {A : Type} (f : A -> A) (I : Z -> A -> Prop).
Hypothesis step : forall j x, 0 <= j -> I j x -> I (j + 1) (f x).

Lemma iter_pos_invariant (p : positive) :
  forall j x, 0 <= j -> I j x -> I (j + Zpos p) (iter_pos f p x).
Proof.
  induction p as [p IH|p IH|]; intros j x Hj Hx; cbn [iter_pos].
  - replace (j + Zpos p~1) with (((j + 1) + Zpos p) + Zpos p) by lia.
    apply IH; [lia|]. apply IH; [lia|]. now apply step.
  - replace (j + Zpos p~0) with ((j + Zpos p) + Zpos p) by lia.
    apply IH; [lia|]. now apply IH.
  - now apply step.
Qed.

End IterPos.


Lemma shifted_step (N D m0 : Z) :
  0 < D ->
  forall j r, 0 <= j -> shifted N D m0 j r -> shifted N D m0 (j + 1) (shr_1 r).
Proof.
  intros HD j r Hj [Hloc Hm]. split.
  - rewrite Z.pow_add_r, Z.pow_1_r by lia.
    replace (2 ^ j * 2 * D) with (2 * (2 ^ j * D)) by lia.
    apply shr_1_located; [|exact Hloc].
    pose proof (Z.pow_pos_nonneg 2 j). lia.
  - rewrite shr_1_m by (destruct Hloc; assumption).
    rewrite Hm, Z.pow_add_r, Z.pow_1_r by lia.
    rewrite Z.div_div; [reflexivity| |lia].
    pose proof (Z.pow_pos_nonneg 2 j). lia.
Qed.

Lemma shr_shifted (N D : Z) (r : shr_record) (e k : Z) :
  0 < D -> 0 <= k -> located N D r ->
  shifted N D (shr_m r) k (fst (shr r e k)) /\ snd (shr r e k) = e + k.
Proof.
  intros HD Hk Hloc.
  assert (H0 : shifted N D (shr_m r) 0 r).
  { split; [now rewrite Z.pow_0_r, Z.mul_1_l | now rewrite Z.pow_0_r, Z.div_1_r]. }
  destruct k as [|p|p]; try lia; cbn [shr fst snd].
  - split; [exact H0 | lia].
  - split; [|reflexivity].
    apply (iter_pos_invariant shr_1 (shifted N D (shr_m r)) (shifted_step N D (shr_m r) HD) p 0 r); [lia|exact H0].
Qed.

Lemma round_nearest_even_located (N D : Z) (r : shr_record) :
  0 < D -> located N D r ->
  let m := round_nearest_even (shr_m r) (loc_of_shr_record r) in
  shr_m r <= m <= shr_m r + 1 /\ 2 * Z.abs (m * D - N) <= D.
Proof.
  intros HD. destruct r as [m rb sb]. unfold located. cbn [shr_m shr_r shr_s].
  intros [Hm H].
  destruct rb, sb; cbn [loc_of_shr_record round_nearest_even]; try (split; lia).
  destruct (Z.even m); split; lia.
Qed.

Lemma fexp_normal (x : Z) : -1021 <= x -> fexp 53 1024 x = x - 53.
Proof. unfold fexp, emin. lia. Qed.

Lemma shr_m_of_loc (m : Z) (l : location) : shr_m (shr_record_of_loc m l) = m.
Proof. destruct l as [|[| |]]; reflexivity. Qed.

Lemma pow2_pos (k : Z) : 0 <= k -> 0 < 2 ^ k.
Proof. intros. apply Z.pow_pos_nonneg; lia. Qed.

Lemma binary_round_aux_located (sx : bool) (mx ex : Z) (lx : location)
      (N D : Z) :
  0 < D -> 2 ^ 52 <= mx ->
  located N D (shr_record_of_loc mx lx) ->
  -1074 <= ex -> ex + (Zdigits2 mx - 53) + 1 <= 971 ->
  exists m e,
    binary_round_aux 53 1024 sx mx ex lx = S754_finite sx m e /\
    2 ^ 52 <= Zpos m < 2 ^ 53 /\
    (e = ex + (Zdigits2 mx - 53) \/
     (e = ex + (Zdigits2 mx - 53) + 1 /\ Zpos m = 2 ^ 52)) /\
    2 * Z.abs (Zpos m * 2 ^ (e - ex) * D - N) <= 2 ^ (Zdigits2 mx - 53) * D.
Proof.
  intros HD Hmx Hloc Hex Hov.
  assert (Hpos : 0 < mx) by (pose proof (pow2_pos 52); lia).
  destruct (Zdigits2_bounds mx Hpos) as [[Hdl Hdh] Hd0].
  set (d := Zdigits2 mx) in *.
  assert (Hd : 53 <= d).
  { destruct (Z.le_gt_cases 53 d) as [|Hlt]; [assumption|].
    assert (2 ^ d <= 2 ^ 52) by (apply Z.pow_le_mono_r; lia). lia. }
  set (k := d - 53) in *.
  assert (Hk : 0 <= k) by (unfold k; lia).
  pose proof (pow2_pos k Hk) as H2k.
  unfold binary_round_aux, shr_fexp. fold d.
  rewrite fexp_normal by lia.
  replace (d + ex - 53 - ex) with k by (unfold k; lia).
  destruct (shr_shifted N D (shr_record_of_loc mx lx) ex k HD Hk Hloc)
    as [[Hloc' Hm'] He'].
  rewrite shr_m_of_loc in Hm'.
  destruct (shr (shr_record_of_loc mx lx) ex k) as [r' e'].
  cbn [fst snd] in Hloc', Hm', He'. subst e'.
  assert (Hm'b : 2 ^ 52 <= shr_m r' < 2 ^ 53).
  { rewrite Hm'.
    assert (E1 : 2 ^ (d - 1) = 2 ^ 52 * 2 ^ k).
    { rewrite <- Z.pow_add_r by lia. f_equal. unfold k. lia. }
    assert (E2 : 2 ^ d = 2 ^ 53 * 2 ^ k).
    { rewrite <- Z.pow_add_r by lia. f_equal. unfold k. lia. }
    split.
    - apply Z.div_le_lower_bound; lia.
    - apply Z.div_lt_upper_bound; lia. }
  assert (HD' : 0 < 2 ^ k * D) by lia.
  destruct (round_nearest_even_located N (2 ^ k * D) r' HD' Hloc')
    as [Hrange Herr].
  set (m2 := round_nearest_even (shr_m r') (loc_of_shr_record r')) in *.
  destruct (Z.eq_dec m2 (2 ^ 53)) as [Hcarry|Hnc].
  - rewrite Hcarry.
    change (Zdigits2 (2 ^ 53)) with 54.
    rewrite fexp_normal by lia.
    replace (54 + (ex + k) - 53 - (ex + k)) with 1 by lia.
    cbn [shr shr_record_of_loc iter_pos].
    change (shr_m (shr_1 {| shr_m := 2 ^ 53; shr_r := false; shr_s := false |}))
      with (Zpos (2 ^ 52)%positive).
    cbv beta iota.
    replace (ex + k + 1 <=? 1024 - 53)%Z with true by (symmetry; apply Z.leb_le; lia).
    exists (2 ^ 52)%positive, (ex + k + 1). split; [reflexivity|].
    split; [cbn; lia|]. split; [right; split; [lia | reflexivity]|].
    replace (ex + k + 1 - ex) with (k + 1) by lia.
    rewrite Z.pow_add_r, Z.pow_1_r by lia.
    replace (Zpos (2 ^ 52)%positive * (2 ^ k * 2) * D) with (m2 * (2 ^ k * D)).
    + exact Herr.
    + rewrite Hcarry. change (Zpos (2 ^ 52)%positive) with (2 ^ 52).
      change (2 ^ 53) with (2 ^ 52 * 2). ring.
  - assert (Hm2 : 2 ^ 52 <= m2 < 2 ^ 53) by lia.
    assert (Hdig : Zdigits2 m2 = 53) by (apply Zdigits2_unique; [exact Hm2 | lia]).
    rewrite Hdig, fexp_normal by lia.
    replace (53 + (ex + k) - 53 - (ex + k)) with 0 by lia.
    cbn [shr shr_record_of_loc shr_m].
    destruct m2 as [|p|p] eqn:Em2; try (pose proof (pow2_pos 52); lia).
    replace (ex + k <=? 1024 - 53)%Z with true by (symmetry; apply Z.leb_le; lia).
    exists p, (ex + k). split; [reflexivity|].
    split; [exact Hm2|]. split; [left; reflexivity|].
    replace (ex + k - ex) with k by lia.
    replace (Zpos p * 2 ^ k * D) with (Zpos p * (2 ^ k * D)) by ring.
    exact Herr.
Qed.

Lemma Pos_iter_xO (n d : positive) :
  Zpos (Pos.iter xO n d) = Zpos n * 2 ^ Zpos d.
Proof.
  induction d as [|d IH] using Pos.peano_ind.
  - cbn [Pos.iter]. rewrite Pos2Z.inj_xO. change (2 ^ 1) with 2. lia.
  - rewrite Pos.iter_succ, Pos2Z.inj_xO, IH, Pos2Z.inj_succ.
    rewrite Z.pow_succ_r by lia. ring.
Qed.

Lemma located_exact (m : Z) :
  0 <= m -> located m 1 (shr_record_of_loc m loc_Exact).
Proof. intros. unfold located; cbn. split; lia. Qed.

(** Rounding a positive integer of at most 53 bits is exact. *)
Lemma binary_round_int_exact (s : bool) (n : positive) :
  Zpos n < 2 ^ 53 ->
  exists ma ea,
    binary_round 53 1024 s n 0 = S754_finite s ma ea /\
    2 ^ 52 <= Zpos ma < 2 ^ 53 /\ -52 <= ea <= 0 /\
    Zpos ma * 2 ^ (ea + 52) = Zpos n * 2 ^ 52.
Proof.
  intros Hn.
  destruct (Zdigits2_bounds (Zpos n) eq_refl) as [[Hdl Hdh] Hd0].
  cbn [Zdigits2] in *.
  set (d := Zpos (digits2_pos n)) in *.
  assert (Hd53 : d <= 53).
  { destruct (Z.le_gt_cases d 53) as [|Hgt]; [assumption|].
    assert (2 ^ 53 <= 2 ^ (d - 1)) by (apply Z.pow_le_mono_r; lia). lia. }
  assert (E1 : 2 ^ 52 = 2 ^ (d - 1) * 2 ^ (53 - d)).
  { rewrite <- Z.pow_add_r by lia. f_equal. lia. }
  assert (E2 : 2 ^ 53 = 2 ^ d * 2 ^ (53 - d)).
  { rewrite <- Z.pow_add_r by lia. f_equal. lia. }
  pose proof (pow2_pos (53 - d)) as Hp.
  assert (Hb : 2 ^ 52 <= Zpos n * 2 ^ (53 - d) < 2 ^ 53).
  { rewrite E1, E2. split.
    - apply Z.mul_le_mono_nonneg_r; lia.
    - apply Z.mul_lt_mono_pos_r; lia. }
  unfold binary_round. fold d. rewrite Z.add_0_r, fexp_normal by lia.
  unfold shl_align. rewrite Z.sub_0_r.
  assert (Hfin : forall mz : positive,
             Zpos mz = Zpos n * 2 ^ (53 - d) ->
             exists ma ea,
               binary_round_aux 53 1024 s (Zpos mz) (d - 53) loc_Exact =
               S754_finite s ma ea /\
               2 ^ 52 <= Zpos ma < 2 ^ 53 /\ -52 <= ea <= 0 /\
               Zpos ma * 2 ^ (ea + 52) = Zpos n * 2 ^ 52).
  { intros mz Hmz. rewrite <- Hmz in Hb.
    assert (Hdig : Zdigits2 (Zpos mz) = 53)
      by (apply Zdigits2_unique; [exact Hb | lia]).
    destruct (binary_round_aux_located s (Zpos mz) (d - 53) loc_Exact
                                       (Zpos mz) 1)
      as (m & e & Hr & Hm & He & Herr); try lia.
    { apply located_exact; lia. }
    rewrite Hdig in He, Herr.
    change (2 ^ (53 - 53) * 1) with 1 in Herr. rewrite Z.mul_1_r in Herr.
    destruct He as [He|[He Hm52]].
    - exists m, e. split; [exact Hr|]. split; [exact Hm|].
      split; [lia|].
      replace (e - (d - 53)) with 0 in Herr by lia.
      rewrite Z.pow_0_r, Z.mul_1_r in Herr.
      replace (e + 52) with (d - 1) by lia.
      replace (Zpos m) with (Zpos mz) by lia.
      rewrite Hmz, E1. ring.
    - exfalso.
      replace (e - (d - 53)) with 1 in Herr by lia.
      rewrite Hm52 in Herr. change (2 ^ 52 * 2 ^ 1) with (2 ^ 53) in Herr.
      lia. }
  destruct (d - 53) as [|dd|dd] eqn:Edd; try lia.
  - apply (Hfin n). replace (53 - d) with 0 by lia.
    rewrite Z.pow_0_r. lia.
  - apply Hfin. rewrite Pos_iter_xO. f_equal. f_equal. lia.
Qed.

(** Rounding a positive integer of [d > 53] bits: the result is within
    half of [2^(d-53)] of the integer. *)
Lemma binary_round_int_round (s : bool) (n : positive) :
  2 ^ 53 <= Zpos n -> Zdigits2 (Zpos n) <= 1000 ->
  exists ma ea,
    binary_round 53 1024 s n 0 = S754_finite s ma ea /\
    2 ^ 52 <= Zpos ma < 2 ^ 53 /\
    1 <= ea <= Zdigits2 (Zpos n) - 52 /\
    (ea = Zdigits2 (Zpos n) - 53 \/ Zpos ma = 2 ^ 52) /\
    2 * Z.abs (Zpos ma * 2 ^ ea - Zpos n) <= 2 ^ (Zdigits2 (Zpos n) - 53).
Proof.
  intros Hn Hd.
  destruct (Zdigits2_bounds (Zpos n) eq_refl) as [[Hdl Hdh] Hd0].
  set (d := Zdigits2 (Zpos n)) in *.
  assert (Hd54 : 54 <= d).
  { destruct (Z.le_gt_cases 54 d) as [|Hlt]; [assumption|].
    assert (2 ^ d <= 2 ^ 53) by (apply Z.pow_le_mono_r; lia). lia. }
  unfold binary_round.
  change (Zpos (digits2_pos n)) with d.
  rewrite Z.add_0_r, fexp_normal by lia.
  unfold shl_align. rewrite Z.sub_0_r.
  destruct (d - 53) as [|dd|dd] eqn:Edd; try lia.
  destruct (binary_round_aux_located s (Zpos n) 0 loc_Exact (Zpos n) 1)
    as (m & e & Hr & Hm & He & Herr); try (fold d; lia).
  { apply located_exact; lia. }
  fold d in He, Herr. rewrite Edd in He, Herr.
  rewrite Z.sub_0_r, !Z.mul_1_r in Herr.
  exists m, e. split; [exact Hr|]. split; [exact Hm|].
  split; [lia|]. split; [|exact Herr].
  destruct He as [He|[_ Hm52]]; [left; lia | right; exact Hm52].
Qed.


Lemma SFdiv_1e9 (s : bool) (ma : positive) (ea : Z) :
  2 ^ 52 <= Zpos ma < 2 ^ 53 -> -52 <= ea <= 900 ->
  exists mq eq,
    SFdiv 53 1024 (S754_finite s ma ea) (S754_finite false m1e9 (-23)) =
    S754_finite s mq eq /\
    (ea - 30 <= eq <= ea - 28 /\ 2 ^ 52 <= Zpos mq < 2 ^ 53) /\
    Z.abs (Zpos mq * 2 ^ (eq - (ea - 30)) * 10 ^ 9 - Zpos ma * 2 ^ 30)
    <= 10 ^ 9.
Proof.
  intros Hma Hea.
  assert (Hda : Zdigits2 (Zpos ma) = 53)
    by (apply Zdigits2_unique; [exact Hma | lia]).
  cbn [SFdiv]. unfold SFdiv_core_binary.
  rewrite Hda. change (Zdigits2 (Zpos m1e9)) with 53.
  rewrite fexp_normal by lia.
  replace (Z.min (53 + ea - (53 + -23) - 53) (ea - -23)) with (ea - 30) by lia.
  replace (ea - -23 - (ea - 30)) with 53 by lia.
  rewrite Z.shiftl_mul_pow2 by lia.
  pose proof (Z_div_mod (Zpos ma * 2 ^ 53) (Zpos m1e9) eq_refl) as Hdm.
  destruct (Z.div_eucl (Zpos ma * 2 ^ 53) (Zpos m1e9)) as [q r].
  destruct Hdm as [Hdm Hr].
  change (2 ^ 53) with 9007199254740992 in Hdm.
  change (2 ^ 52) with 4503599627370496 in Hma.
  change (2 ^ 53) with 9007199254740992 in Hma.
  unfold m1e9 in *.
  assert (Hq : 2 ^ 52 <= q < 2 ^ 54).
  { change (2 ^ 52) with 4503599627370496.
    change (2 ^ 54) with 18014398509481984. lia. }
  assert (Hloc : located (Zpos ma * 2 ^ 53) 8388608000000000
                         (shr_record_of_loc q
                            (new_location 8388608000000000 r))).
  { unfold new_location. change (Z.even 8388608000000000) with true.
    cbv iota. unfold new_location_even.
    change (2 ^ 53) with 9007199254740992.
    destruct (Z.eqb_spec r 0) as [Hr0|Hr0].
    - unfold located; cbn [shr_record_of_loc shr_m shr_r shr_s]. lia.
    - destruct (Z.compare_spec (2 * r) 8388608000000000) as [Hc|Hc|Hc];
        unfold located; cbn [shr_record_of_loc shr_m shr_r shr_s]; lia. }
  assert (Hdq : Zdigits2 q = 53 \/ Zdigits2 q = 54).
  { destruct (Z.lt_ge_cases q (2 ^ 53)) as [Hlt|Hge].
    - left. apply Zdigits2_unique; [|lia]. change (53 - 1) with 52. lia.
    - right. apply Zdigits2_unique; [|lia]. change (54 - 1) with 53. lia. }
  destruct (binary_round_aux_located (xorb s false) q (ea - 30)
              (new_location 8388608000000000 r)
              (Zpos ma * 2 ^ 53) 8388608000000000)
    as (m & e & Hres & Hm & He & Herr); try lia; [exact Hloc|].
  cbv beta iota.
  exists m, e. split; [now rewrite Hres, xorb_false_r|].
  split; [split; [lia | exact Hm]|].
  assert (H2k : 2 ^ (Zdigits2 q - 53) <= 2).
  { destruct Hdq as [E|E]; rewrite E; cbn; lia. }
  set (P := Zpos m * 2 ^ (e - (ea - 30))) in *.
  change (2 ^ 53) with 9007199254740992 in Herr.
  change (2 ^ 30) with 1073741824. change (10 ^ 9) with 1000000000.
  lia.
Qed.

Lemma toQ_scaled (s : bool) (m : positive) (e K : Z) :
  0 <= K -> 0 <= e + K ->
  (Float64.toQ (S754_finite s m e) * inject_Z (2 ^ K) ==
   inject_Z (cond_Zopp s (Zpos m) * 2 ^ (e + K)))%Q.
Proof.
  intros HK HeK. unfold Float64.toQ. cbn [Float64.mantissa Float64.exponent].
  rewrite inject_Z_mult, !Zpower_Qpower by lia.
  change (inject_Z 2) with 2%Q.
  rewrite (Qpower_plus 2 e K) by discriminate.
  ring.
Qed.

Lemma toQ_as_fraction (x : float64) (V : Z) (p : positive) :
  (Float64.toQ x * inject_Z (Zpos p) == inject_Z V)%Q ->
  (Float64.toQ x == V # p)%Q.
Proof.
  intros H. rewrite (Qmake_Qdiv V p), <- H.
  rewrite Qdiv_mult_l; [reflexivity | discriminate].
Qed.

(** [float64(n)] of a non-zero integer below [2^63] in magnitude is
    finite, with an exponent in [-52, 11], and within [2^9] of [n]. *)
Lemma binary_round_int63 (s : bool) (n : positive) :
  Zpos n < 2 ^ 63 ->
  exists ma ea,
    binary_round 53 1024 s n 0 = S754_finite s ma ea /\
    2 ^ 52 <= Zpos ma < 2 ^ 53 /\ -52 <= ea <= 11 /\
    Z.abs (Zpos ma * 2 ^ (ea + 52) - Zpos n * 2 ^ 52) <= 2 ^ 61.
Proof.
  intros Hn. destruct (Z.lt_ge_cases (Zpos n) (2 ^ 53)) as [Hlt|Hge].
  - destruct (binary_round_int_exact s n Hlt) as (ma & ea & Hr & Hm & He & Hex).
    exists ma, ea. split; [exact Hr|]. split; [exact Hm|]. split; [lia|].
    rewrite Hex, Z.sub_diag. cbn. lia.
  - destruct (Zdigits2_bounds (Zpos n) eq_refl) as [[Hdl Hdh] Hd0].
    set (d := Zdigits2 (Zpos n)) in *.
    assert (Hd63 : d <= 63).
    { destruct (Z.le_gt_cases d 63) as [|Hgt]; [assumption|].
      assert (2 ^ 63 <= 2 ^ (d - 1)) by (apply Z.pow_le_mono_r; lia). lia. }
    destruct (binary_round_int_round s n Hge) as (ma & ea & Hr & Hm & He & _ & Herr);
      [fold d; lia|].
    fold d in He, Herr.
    exists ma, ea. split; [exact Hr|]. split; [exact Hm|]. split; [lia|].
    assert (H2k : 2 ^ (d - 53) <= 2 ^ 10) by (apply Z.pow_le_mono_r; lia).
    rewrite Z.pow_add_r by lia.
    replace (Zpos ma * (2 ^ ea * 2 ^ 52) - Zpos n * 2 ^ 52)
      with ((Zpos ma * 2 ^ ea - Zpos n) * 2 ^ 52) by ring.
    rewrite Z.abs_mul. change (Z.abs (2 ^ 52)) with (2 ^ 52).
    change (2 ^ 61) with (2 ^ 9 * 2 ^ 52).
    apply Z.mul_le_mono_nonneg_r; [lia|].
    change (2 ^ 10) with 1024 in H2k. change (2 ^ 9) with 512. lia.
Qed.

Lemma c1e9_eq : Float64.c1e9 = S754_finite false m1e9 (-23).
Proof. reflexivity. Qed.

(** The seconds computed from a non-zero nanosecond count below [2^63]. *)
Lemma seconds_of_nanos (s : bool) (n : positive) :
  Zpos n < 2 ^ 63 ->
  exists mq eq,
    Float64.div (binary_round 53 1024 s n 0) Float64.c1e9 =
    S754_finite s mq eq /\
    (-82 <= eq <= -17 /\ 2 ^ 52 <= Zpos mq < 2 ^ 53) /\
    Z.abs (Zpos mq * 2 ^ (eq + 82) * 10 ^ 9 - Zpos n * 2 ^ 82)
    <= 10 ^ 9 * 2 ^ 63 + 2 ^ 91.
Proof.
  intros Hn.
  destruct (binary_round_int63 s n Hn) as (ma & ea & Hr & Hm & He & Hex).
  destruct (SFdiv_1e9 s ma ea Hm) as (mq & eq & Hd & Heq & Herr); [lia|].
  exists mq, eq. split.
  { unfold Float64.div. rewrite Hr, c1e9_eq. exact Hd. }
  split; [split; [lia | tauto]|].
  replace (eq + 82) with ((eq - (ea - 30)) + (ea + 52)) by lia.
  rewrite Z.pow_add_r by lia.
  set (P := Zpos mq * 2 ^ (eq - (ea - 30))) in *.
  set (sc := 2 ^ (ea + 52)) in *.
  assert (HS : 0 < sc <= 2 ^ 63).
  { unfold sc. split; [apply pow2_pos; lia|].
    apply Z.pow_le_mono_r; lia. }
  replace (Zpos mq * (2 ^ (eq - (ea - 30)) * sc)) with (P * sc)
    by (unfold P; ring).
  replace (P * sc * 10 ^ 9 - Zpos n * 2 ^ 82)
    with ((P * 10 ^ 9 - Zpos ma * 2 ^ 30) * sc +
          2 ^ 30 * (Zpos ma * sc - Zpos n * 2 ^ 52)).
  2:{ change (2 ^ 82) with (2 ^ 30 * 2 ^ 52). ring. }
  eapply Z.le_trans; [apply Z.abs_triangle|].
  apply Z.add_le_mono.
  - rewrite Z.abs_mul, (Z.abs_eq sc) by lia.
    apply Z.mul_le_mono_nonneg; lia.
  - rewrite Z.abs_mul. change (Z.abs (2 ^ 30)) with (2 ^ 30).
    change (2 ^ 91) with (2 ^ 30 * 2 ^ 61).
    apply Z.mul_le_mono_nonneg_l; [lia | exact Hex].
Qed.

Lemma seconds_accuracy (t : Z) :
  - 2 ^ 63 <= t < 2 ^ 63 ->
  Float64.is_finite (Float64.div (Float64.of_int t) Float64.c1e9) = true /\
  (Qabs (Float64.toQ (Float64.div (Float64.of_int t) Float64.c1e9) -
         (t # 1000000000)) <= 1 # 400000)%Q.
Proof.
  intros Ht.
  destruct (Z.eq_dec t (- 2 ^ 63)) as [Hmin|Hmin].
  { subst t. split; [reflexivity|]. vm_compute. discriminate. }
  assert (Hgen : forall s n, Zpos n < 2 ^ 63 ->
            Float64.is_finite (Float64.div (binary_round 53 1024 s n 0)
                                           Float64.c1e9) = true /\
            (Qabs (Float64.toQ (Float64.div (binary_round 53 1024 s n 0)
                                            Float64.c1e9) -
                   (cond_Zopp s (Zpos n) # 1000000000)) <= 1 # 400000)%Q).
  { intros s n Hn.
    destruct (seconds_of_nanos s n Hn) as (mq & eq & Hd & Heq & Herr).
    rewrite Hd. split; [reflexivity|].
    pose proof (toQ_scaled s mq eq 82 ltac:(lia) ltac:(lia)) as HQ.
    change (2 ^ 82) with (Zpos (2 ^ 82)%positive) in HQ at 1.
    apply toQ_as_fraction in HQ. rewrite HQ.
    set (V := Zpos mq * 2 ^ (eq + 82)) in *.
    apply Qabs_Qle_condition.
    change (10 ^ 9) with 1000000000 in Herr.
    change (2 ^ 82) with 4835703278458516698824704 in Herr.
    change (2 ^ 63) with 9223372036854775808 in Herr.
    change (2 ^ 91) with 2475880078570760549798248448 in Herr.
    unfold Qle, Qminus, Qplus, Qopp. cbn [Qnum Qden].
    change (Zpos (2 ^ 82)%positive) with 4835703278458516698824704.
    destruct s; cbn [cond_Zopp]; lia. }
  destruct t as [|n|n]; cbn [Float64.of_int binary_normalize].
  - split; [reflexivity|]. vm_compute. discriminate.
  - apply (Hgen false n). lia.
  - apply (Hgen true n). lia.
Qed.

(* ------------------------------------------------------------------ *)
(** ** The time collector *)

Lemma Qmake_minus (a b : Z) (p : positive) :
  ((a - b) # p == (a # p) - (b # p))%Q.
Proof.
  unfold Qeq, Qminus, Qplus, Qopp. cbn [Qnum Qden].
  rewrite Pos2Z.inj_mul. ring.
Qed.

Section TimeFacts.

Variable Logger : Type.
Variable namespace : string.
Variable constLabels : prometheus.Labels.

Local Abbreviation NewCollector :=
  (Time.NewTimeCollector Logger namespace constLabels).
Local Abbreviation Update := (Time.Update Logger).

Lemma time_Update_eq (logger : Logger) (w : World) :
  let now := Float64.div (Float64.of_int (time_Now_UnixNano w))
                         Float64.c1e9 in
  Update (fst (NewCollector logger)) w =
  ({| sent := [ {| prometheus.desc :=
                     prometheus.NewDesc
                       (namespace ++ "_time_seconds")
                       "System time in seconds since epoch (1970)."
                       [] constLabels;
                   prometheus.valType := prometheus.GaugeValue;
                   prometheus.value := now;
                   prometheus.labelValues := [] |} ];
      logged := [ {| log_to := logger; log_level := "debug";
                     log_keyvals := [("msg", LogString "Return time");
                                     ("now", LogFloat now)] |} ] |},
   Returned None).
Proof. reflexivity. Qed.

(** X1. Whatever the clock reads within int64, a call of the time collector
    returns nil having sent one gauge sample without labels, whose value
    is a finite float within 2.5 microseconds of the clock reading in
    seconds, and logged one debug line carrying that same value. *)
Theorem time_update_value_accuracy (logger : Logger) (w : World) :
  - 2 ^ 63 <= time_Now_UnixNano w < 2 ^ 63 ->
  let r := Update (fst (NewCollector logger)) w in
  result r = Returned None /\
  exists v,
    samples r =
    [ {| prometheus.desc :=
           prometheus.NewDesc (namespace ++ "_time_seconds")
                              "System time in seconds since epoch (1970)."
                              [] constLabels;
         prometheus.valType := prometheus.GaugeValue;
         prometheus.value := v;
         prometheus.labelValues := [] |} ] /\
    map (fun l => (log_level _ l, log_keyvals _ l)) (logged (fst r)) =
    [ ("debug", [("msg", LogString "Return time"); ("now", LogFloat v)]) ] /\
    Float64.is_finite v = true /\
    (Qabs (Float64.toQ v - (time_Now_UnixNano w # 1000000000))
     <= 1 # 400000)%Q.
Proof.
  intros Ht r. unfold r. rewrite time_Update_eq.
  split; [reflexivity|]. eexists. split; [reflexivity|].
  split; [reflexivity|]. now apply seconds_accuracy.
Qed.

(** X2. Two calls of the time collector report values whose difference is the
    difference of the two clock readings in seconds, up to 5
    microseconds: one second apart, the values differ by 1.0 up to that
    error. The value is read at each call. *)
Theorem time_update_difference (logger : Logger) (w1 w2 : World) :
  - 2 ^ 63 <= time_Now_UnixNano w1 < 2 ^ 63 ->
  - 2 ^ 63 <= time_Now_UnixNano w2 < 2 ^ 63 ->
  let c := fst (NewCollector logger) in
  exists v1 v2,
    map prometheus.value (samples (Update c w1)) = [v1] /\
    map prometheus.value (samples (Update c w2)) = [v2] /\
    (Qabs (Float64.toQ v2 - Float64.toQ v1 -
           ((time_Now_UnixNano w2 - time_Now_UnixNano w1) # 1000000000))
     <= 1 # 200000)%Q /\
    (time_Now_UnixNano w2 = time_Now_UnixNano w1 + 1000000000 ->
     (Qabs (Float64.toQ v2 - Float64.toQ v1 - 1) <= 1 # 200000)%Q).
Proof.
  intros H1 H2 c. unfold c. rewrite !time_Update_eq.
  do 2 eexists. split; [reflexivity|]. split; [reflexivity|].
  destruct (seconds_accuracy _ H1) as [_ A1].
  destruct (seconds_accuracy _ H2) as [_ A2].
  set (x1 := Float64.toQ _) in A1. set (x2 := Float64.toQ _) in A2.
  cbn [samples fst sent map prometheus.value]. fold x1 x2.
  apply Qabs_Qle_condition in A1, A2.
  assert (Hd : (Qabs (x2 - x1 -
                      ((time_Now_UnixNano w2 - time_Now_UnixNano w1)
                         # 1000000000)) <= 1 # 200000)%Q).
  { rewrite Qmake_minus.
    set (q1 := (time_Now_UnixNano w1 # 1000000000)%Q) in *.
    set (q2 := (time_Now_UnixNano w2 # 1000000000)%Q) in *.
    apply Qabs_Qle_condition. split; lra. }
  split; [exact Hd|].
  intros Hs. rewrite Hs in Hd.
  replace (time_Now_UnixNano w1 + 1000000000 - time_Now_UnixNano w1)
    with 1000000000 in Hd by lia.
  assert (E : (1000000000 # 1000000000 == 1)%Q) by reflexivity.
  now rewrite E in Hd.
Qed.

End TimeFacts.

(* ------------------------------------------------------------------ *)
(** ** Counters as floats *)

Lemma binary_round_exact_toQ (s : bool) (n : positive) :
  Zpos n < 2 ^ 53 ->
  Float64.is_finite (binary_round 53 1024 s n 0) = true /\
  (Float64.toQ (binary_round 53 1024 s n 0) ==
   inject_Z (cond_Zopp s (Zpos n)))%Q.
Proof.
  intros Hn.
  destruct (binary_round_int_exact s n Hn) as (ma & ea & Hr & Hm & He & Hex).
  rewrite Hr. split; [reflexivity|].
  pose proof (toQ_scaled s ma ea 52 ltac:(lia) ltac:(lia)) as HQ.
  apply (Qmult_inj_r _ _ (inject_Z (2 ^ 52))); [discriminate|].
  rewrite HQ, <- inject_Z_mult.
  replace (cond_Zopp s (Zpos ma) * 2 ^ (ea + 52))
    with (cond_Zopp s (Zpos n) * 2 ^ 52); [reflexivity|].
  destruct s; cbn [cond_Zopp]; lia.
Qed.

Lemma binary_round_near_toQ (s : bool) (n : positive) :
  Zpos n < 2 ^ 64 ->
  Float64.is_finite (binary_round 53 1024 s n 0) = true /\
  (Qabs (Float64.toQ (binary_round 53 1024 s n 0) -
         inject_Z (cond_Zopp s (Zpos n))) <= 1024)%Q.
Proof.
  intros Hn. destruct (Z.lt_ge_cases (Zpos n) (2 ^ 53)) as [Hlt|Hge].
  - destruct (binary_round_exact_toQ s n Hlt) as [Hf Hq].
    split; [exact Hf|]. rewrite Hq.
    setoid_replace (inject_Z (cond_Zopp s (Zpos n)) -
                    inject_Z (cond_Zopp s (Zpos n)))%Q with 0%Q by ring.
    discriminate.
  - destruct (Zdigits2_bounds (Zpos n) eq_refl) as [[Hdl Hdh] Hd0].
    set (d := Zdigits2 (Zpos n)) in *.
    assert (Hd64 : d <= 64).
    { destruct (Z.le_gt_cases d 64) as [|Hgt]; [assumption|].
      assert (2 ^ 64 <= 2 ^ (d - 1)) by (apply Z.pow_le_mono_r; lia). lia. }
    destruct (binary_round_int_round s n Hge)
      as (ma & ea & Hr & Hm & He & _ & Herr); [fold d; lia|].
    fold d in He, Herr. rewrite Hr. split; [reflexivity|].
    assert (H2k : 2 ^ (d - 53) <= 2 ^ 11) by (apply Z.pow_le_mono_r; lia).
    change (2 ^ 11) with 2048 in H2k.
    pose proof (toQ_scaled s ma ea 0 ltac:(lia) ltac:(lia)) as HQ.
    change (2 ^ 0) with (Zpos 1) in HQ. apply toQ_as_fraction in HQ.
    rewrite HQ, Z.add_0_r.
    set (V := Zpos ma * 2 ^ ea) in *.
    apply Qabs_Qle_condition.
    unfold Qle, Qminus, Qplus, Qopp, inject_Z. cbn [Qnum Qden].
    destruct s; cbn [cond_Zopp]; lia.
Qed.

(** An integer below [2^53] in magnitude converts to float64 exactly. *)
Lemma of_int_exact (n : Z) :
  - 2 ^ 53 < n < 2 ^ 53 ->
  Float64.is_finite (Float64.of_int n) = true /\
  (Float64.toQ (Float64.of_int n) == inject_Z n)%Q.
Proof.
  intros Hn. destruct n as [|p|p]; cbn [Float64.of_int binary_normalize].
  - split; reflexivity.
  - apply (binary_round_exact_toQ false p). lia.
  - apply (binary_round_exact_toQ true p). lia.
Qed.

(** An integer below [2^64] in magnitude converts to a finite float64
    within 1024 of it. *)
Lemma of_int_near (n : Z) :
  - 2 ^ 64 < n < 2 ^ 64 ->
  Float64.is_finite (Float64.of_int n) = true /\
  (Qabs (Float64.toQ (Float64.of_int n) - inject_Z n) <= 1024)%Q.
Proof.
  intros Hn. destruct n as [|p|p]; cbn [Float64.of_int binary_normalize].
  - split; [reflexivity | discriminate].
  - apply (binary_round_near_toQ false p). lia.
  - apply (binary_round_near_toQ true p). lia.
Qed.

Lemma of_int_faithful (n : Z) :
  - 2 ^ 64 < n < 2 ^ 64 -> faithful (Float64.of_int n) n.
Proof.
  intros Hn. destruct (of_int_near n Hn) as [Hf Hq].
  split; [exact Hf|]. split; [exact Hq|].
  intros Hs. now apply of_int_exact.
Qed.

Lemma Forall2_flat_map {A B C : Type} (R : B -> C -> Prop)
      (f : A -> list B) (g : A -> list C) (xs : list A) :
  Forall (fun x => Forall2 R (f x) (g x)) xs ->
  Forall2 R (flat_map f xs) (flat_map g xs).
Proof.
  induction 1 as [|x rest Hx _ IH]; cbn [flat_map]; [constructor|].
  now apply Forall2_app.
Qed.

Section QdiscValues.

Variable Logger : Type.
Variable namespace : string.
Variable constLabels : prometheus.Labels.
Variable json_Unmarshal : string -> list qdisc.QdiscInfo * option error.
Variable filepath_Join : string -> string -> string.

Local Abbreviation NewCollector :=
  (Qdisc.NewQdiscStatCollector Logger namespace constLabels).
Local Abbreviation Update :=
  (Qdisc.Update Logger json_Unmarshal filepath_Join).
Local Abbreviation source := (qdiscSource json_Unmarshal filepath_Join).

(** X3. The values the qdisc collector sends stand for the integer counters
    of the root entries, one after the other: every value is a finite
    float, the six uint32 counters are reported exactly, and the uint64
    byte counter is reported exactly below [2^53] and within 1024
    otherwise. *)
Theorem qdisc_values_faithful
        (logger : Logger) (fixtures : string) (w : World)
        (msgs : list qdisc.QdiscInfo) :
  source w fixtures = (msgs, None) ->
  Forall qdiscWellTyped (filter isRoot msgs) ->
  let r := Update (fst (NewCollector logger)) fixtures w in
  Forall2 (fun m z => faithful (prometheus.value m) z)
          (samples r) (flat_map qdiscRaw (filter isRoot msgs)) /\
  (Forall (fun msg => qdisc.Bytes msg < 2 ^ 53) (filter isRoot msgs) ->
   Forall2 (fun m z => (Float64.toQ (prometheus.value m) == inject_Z z)%Q)
           (samples r) (flat_map qdiscRaw (filter isRoot msgs))).
Proof.
  intros Hsrc Hwt r.
  assert (Hr : samples r =
               flat_map (qdiscCounters (fst (NewCollector logger)))
                        (filter isRoot msgs)).
  { unfold r. rewrite qdisc_Update_eq, Hsrc. reflexivity. }
  rewrite Hr. clear Hr Hsrc r.
  assert (H32 : forall z, uint32 z -> - 2 ^ 64 < z < 2 ^ 64)
    by (unfold uint32; intros; lia).
  assert (H32s : forall z, uint32 z -> - 2 ^ 53 < z < 2 ^ 53)
    by (unfold uint32; intros; lia).
  split.
  - apply Forall2_flat_map. revert Hwt. apply Forall_impl.
    intros msg (_ & _ & Hb & Hp & Hd & Hrq & Ho & Hq & Hbl).
    unfold qdiscCounters, qdiscRaw, observe.
    repeat constructor; cbn [prometheus.value];
      apply of_int_faithful;
      first [apply H32; assumption | unfold uint64 in Hb; lia].
  - intros Hsmall. apply Forall2_flat_map.
    rewrite Forall_forall in *. intros msg Hin.
    destruct (Hwt msg Hin) as (_ & _ & Hb & Hp & Hd & Hrq & Ho & Hq & Hbl).
    specialize (Hsmall msg Hin). cbv beta in Hsmall.
    unfold qdiscCounters, qdiscRaw, observe.
    repeat constructor; cbn [prometheus.value];
      apply of_int_exact;
      first [apply H32s; assumption | unfold uint64 in Hb; lia].
Qed.

End QdiscValues.

(* ------------------------------------------------------------------ *)
(** ** More on the diskstats collector *)

Lemma forRange_ext_in {Logger A : Type} (body1 body2 : A -> Exec Logger unit)
      (xs : list A) :
  (forall x, In x xs -> body1 x = body2 x) ->
  forRange xs body1 = forRange xs body2.
Proof.
  induction xs as [|x rest IH]; intros H; cbn [forRange]; [reflexivity|].
  rewrite H by (left; reflexivity).
  rewrite IH by (intros y Hy; apply H; now right).
  reflexivity.
Qed.

Lemma forRange_map {Logger A : Type} (g : A -> A)
      (body : A -> Exec Logger unit) (xs : list A) :
  (forall x, body x = body (g x)) ->
  forRange xs body = forRange (map g xs) body.
Proof.
  intros H. induction xs as [|x rest IH]; cbn [forRange map];
    [reflexivity|].
  now rewrite <- H, IH.
Qed.

Lemma map_flat_map {A B C : Type} (f : B -> C) (g : A -> list B)
      (xs : list A) :
  map f (flat_map g xs) = flat_map (fun x => map f (g x)) xs.
Proof.
  induction xs as [|x rest IH]; cbn [flat_map map]; [reflexivity|].
  now rewrite map_app, IH.
Qed.

Lemma NoDup_map_in {A B : Type} (f : A -> B) (xs : list A) :
  (forall a b, In a xs -> In b xs -> f a = f b -> a = b) ->
  NoDup xs -> NoDup (map f xs).
Proof.
  intros Hinj Hnd. induction Hnd as [|x rest Hx Hnd IH]; cbn [map];
    constructor.
  - intros Hin. apply in_map_iff in Hin. destruct Hin as (y & Hy & Hin).
    apply Hinj in Hy; [subst y; contradiction | now right | now left].
  - apply IH. intros a b Ha Hb. apply Hinj; now right.
Qed.

(** The float of a non-zero int64 is a finite non-zero float of its sign;
    dividing it by the float of zero gives an infinity, and zero by zero
    gives not-a-number. *)
Lemma div_of_int_zero (n : Z) :
  int64 n ->
  Float64.div (Float64.of_int n) (Float64.of_int 0) = overZero n.
Proof.
  unfold int64. intros Hn.
  destruct (Z.eq_dec n (- 2 ^ 63)) as [Hmin|Hmin]; [now subst n|].
  destruct n as [|p|p]; [reflexivity| |];
    cbn [Float64.of_int binary_normalize overZero].
  - destruct (binary_round_int63 false p) as (ma & ea & Hr & _); [lia|].
    unfold Float64.div, Float64.prec, Float64.emax. now rewrite Hr.
  - destruct (binary_round_int63 true p) as (ma & ea & Hr & _); [lia|].
    unfold Float64.div, Float64.prec, Float64.emax. now rewrite Hr.
Qed.

Section DiskstatsMore.

Variable Logger : Type.
Variable namespace : string.
Variable diskSubsystem : string.
Variable diskLabelNames : list string.
Variable constLabels : prometheus.Labels.

Local Abbreviation NewCollector :=
  (Diskstats.NewDiskstatsCollector Logger namespace diskSubsystem
                                   diskLabelNames constLabels).
Local Abbreviation Update := (Diskstats.Update Logger).
Local Abbreviation fq := (prometheus.BuildFQName namespace diskSubsystem).

Lemma diskstats_samples_cases (logger : Logger) (w : World) :
  samples (Update (fst (NewCollector logger)) w) = [] \/
  samples (Update (fst (NewCollector logger)) w) =
  flat_map (driveCounters (fst (NewCollector logger)))
           (fst (iostat_ReadDriveStats w)).
Proof.
  destruct (Nat.eq_dec (List.length diskLabelNames) 1) as [Hlen|Hlen].
  - rewrite diskstats_Update_eq by exact Hlen.
    destruct (snd (iostat_ReadDriveStats w)); [now left | now right].
  - left. now apply diskstats_Update_mismatch.
Qed.

(** X7. The constructor builds a descriptor for io_time_seconds_total but
    leaves it out of the collector: no call ever sends a sample of that
    series. *)
Theorem diskstats_never_reports_io_time (logger : Logger) (w : World) :
  series (fq "io_time_seconds_total")
         (samples (Update (fst (NewCollector logger)) w)) = [].
Proof.
  destruct (diskstats_samples_cases logger w) as [H|H]; rewrite H;
    [reflexivity|].
  clear H. unfold series. rewrite filter_flat_map.
  induction (fst (iostat_ReadDriveStats w)) as [|st rest IH];
    [reflexivity|].
  cbn [flat_map]. rewrite IH, app_nil_r. unfold driveCounters.
  cbn [fst Diskstats.NewDiskstatsCollector Diskstats.descs map filter
       observe prometheus.desc Collector.desc prometheus.fqName
       prometheus.NewDesc Diskstats.typedDesc].
  rewrite !BuildFQName_eqb by discriminate.
  reflexivity.
Qed.

(** X8. The drive fields [Size], [ReadLatency] and [WriteLatency] are read by
    no descriptor: two machines whose drives agree on all the other
    fields get the same samples, in the same order, and the same result. *)
Theorem diskstats_ignores_unreported_fields
        (logger : Logger) (w1 w2 : World) :
  snd (iostat_ReadDriveStats w1) = snd (iostat_ReadDriveStats w2) ->
  map reported (fst (iostat_ReadDriveStats w1)) =
  map reported (fst (iostat_ReadDriveStats w2)) ->
  Update (fst (NewCollector logger)) w1 =
  Update (fst (NewCollector logger)) w2.
Proof.
  intros Herr Hrep. unfold Diskstats.Update.
  destruct (iostat_ReadDriveStats w1) as [stats1 err1].
  destruct (iostat_ReadDriveStats w2) as [stats2 err2].
  cbn [fst snd] in Herr, Hrep. subst err2.
  destruct err1 as [e|]; [reflexivity|].
  f_equal.
  set (body := fun stats : iostat.DriveStats => forRange _ _).
  assert (Hbody : forall st, body st = body (reported st)).
  { intros st. unfold body. apply forRange_ext_in. intros d Hd.
    cbn [fst Diskstats.NewDiskstatsCollector Diskstats.descs In] in Hd.
    repeat (destruct Hd as [Hd|Hd]; [subst d; reflexivity|]).
    contradiction. }
  rewrite (forRange_map reported body stats1 Hbody).
  rewrite (forRange_map reported body stats2 Hbody).
  now rewrite Hrep.
Qed.

(** X9. For every fetched drive a call sends twelve samples labelled with the
    drive's name, in this order and with these values: reads completed,
    sectors read, read time, writes completed, sectors written, write
    time, bytes read, bytes written, read errors, write errors, read
    retries, write retries. *)
Theorem diskstats_series_layout
        (logger : Logger) (w : World) (stats : list iostat.DriveStats) :
  List.length diskLabelNames = 1%nat ->
  iostat_ReadDriveStats w = (stats, None) ->
  map (fun m => (prometheus.fqName (prometheus.desc m),
                 prometheus.labelValues m, prometheus.value m))
      (samples (Update (fst (NewCollector logger)) w)) =
  flat_map
    (fun st =>
       let name := [iostat.Name st] in
       [ (fq "reads_completed_total", name,
          Float64.of_int (iostat.NumRead st));
         (fq "read_sectors_total", name,
          Float64.div (Float64.of_int (iostat.NumRead st))
                      (Float64.of_int (iostat.BlockSize st)));
         (fq "read_time_seconds_total", name,
          gotime.Seconds (iostat.TotalReadTime st));
         (fq "writes_completed_total", name,
          Float64.of_int (iostat.NumWrite st));
         (fq "written_sectors_total", name,
          Float64.div (Float64.of_int (iostat.NumWrite st))
                      (Float64.of_int (iostat.BlockSize st)));
         (fq "write_time_seconds_total", name,
          gotime.Seconds (iostat.TotalWriteTime st));
         (fq "read_bytes_total", name,
          Float64.of_int (iostat.BytesRead st));
         (fq "written_bytes_total", name,
          Float64.of_int (iostat.BytesWritten st));
         (fq "read_errors_total", name,
          Float64.of_int (iostat.ReadErrors st));
         (fq "write_errors_total", name,
          Float64.of_int (iostat.WriteErrors st));
         (fq "read_retries_total", name,
          Float64.of_int (iostat.ReadRetries st));
         (fq "write_retries_total", name,
          Float64.of_int (iostat.WriteRetries st)) ])
    stats.
Proof.
  intros Hlen Hfetch.
  rewrite diskstats_Update_eq, Hfetch by exact Hlen.
  cbn [fst snd samples sent]. rewrite map_flat_map.
  apply flat_map_ext. intros st. reflexivity.
Qed.

(** X10. When the declared label names are not exactly one, the first sample
    of the first fetched drive panics and nothing has been sent; with no
    drive fetched the call still returns nil, and a failed fetch still
    returns its error. *)
Theorem diskstats_label_mismatch_panics (logger : Logger) (w : World) :
  List.length diskLabelNames <> 1%nat ->
  let r := Update (fst (NewCollector logger)) w in
  samples r = [] /\
  (snd (iostat_ReadDriveStats w) = None ->
   fst (iostat_ReadDriveStats w) <> [] -> result r = Panicked) /\
  (iostat_ReadDriveStats w = ([], None) -> result r = Returned None) /\
  (snd (iostat_ReadDriveStats w) <> None -> returnsError r).
Proof.
  intros Hlen r.
  split; [now apply diskstats_Update_mismatch|].
  unfold r, result, returnsError, result, Diskstats.Update.
  destruct (iostat_ReadDriveStats w) as [[|st rest] [e|]]; cbn [fst snd];
    repeat split; try congruence; try (intros; eexists; reflexivity);
    try reflexivity.
  intros _ _.
  rewrite (forRange_panics _ _ _ silent); [reflexivity|].
  apply forRange_panics.
  unfold Collector.mustNewConstMetric, MustNewConstMetric.
  cbn [Diskstats.typedDesc Collector.desc prometheus.variableLabels
       prometheus.NewDesc List.length].
  destruct (Nat.eqb_spec 1 (List.length diskLabelNames)) as [E|E];
    [now rewrite <- E in Hlen | reflexivity].
Qed.

(** X11. A drive whose block size is zero gets sector samples that are not
    finite: the two sector series carry an infinity of the sign of the
    operation count, or not-a-number when the count is zero too. The
    call neither fails nor skips the drive. *)
Theorem diskstats_zero_block_size
        (logger : Logger) (w : World) (stats : list iostat.DriveStats)
        (st : iostat.DriveStats) :
  List.length diskLabelNames = 1%nat ->
  iostat_ReadDriveStats w = (stats, None) ->
  In st stats -> iostat.BlockSize st = 0 ->
  int64 (iostat.NumRead st) -> int64 (iostat.NumWrite st) ->
  let r := Update (fst (NewCollector logger)) w in
  result r = Returned None /\
  In ([iostat.Name st], overZero (iostat.NumRead st))
     (map (fun m => (prometheus.labelValues m, prometheus.value m))
          (series (fq "read_sectors_total") (samples r))) /\
  In ([iostat.Name st], overZero (iostat.NumWrite st))
     (map (fun m => (prometheus.labelValues m, prometheus.value m))
          (series (fq "written_sectors_total") (samples r))) /\
  Float64.is_finite (overZero (iostat.NumRead st)) = false /\
  Float64.is_finite (overZero (iostat.NumWrite st)) = false.
Proof.
  intros Hlen Hfetch Hin Hbs Hnr Hnw r.
  assert (Hr : r = ({| sent := flat_map
                                 (driveCounters (fst (NewCollector logger)))
                                 stats;
                       logged := [] |}, Returned None)).
  { unfold r. rewrite diskstats_Update_eq, Hfetch by exact Hlen.
    reflexivity. }
  rewrite Hr. cbn [result samples fst snd sent].
  split; [reflexivity|].
  assert (Hser : forall name,
            incl (map (fun m => (prometheus.labelValues m,
                                 prometheus.value m))
                      (series name
                         (driveCounters (fst (NewCollector logger)) st)))
                 (map (fun m => (prometheus.labelValues m,
                                 prometheus.value m))
                      (series name
                         (flat_map
                            (driveCounters (fst (NewCollector logger)))
                            stats)))).
  { intros name x Hx. apply in_map_iff in Hx.
    destruct Hx as (m & Hm & Hx). apply in_map_iff. exists m.
    split; [exact Hm|]. unfold series in *. apply filter_In in Hx.
    apply filter_In. split; [|tauto]. apply in_flat_map.
    exists st. tauto. }
  split; [|split; [|split]].
  - apply Hser. rewrite diskstats_read_sectors_series.
    rewrite Hbs, div_of_int_zero by exact Hnr. now left.
  - apply Hser. rewrite diskstats_written_sectors_series.
    rewrite Hbs, div_of_int_zero by exact Hnw. now left.
  - now destruct (iostat.NumRead st).
  - now destruct (iostat.NumWrite st).
Qed.

(** The twelve descriptors of the collector have pairwise different
    fully-qualified names, whatever the namespace and the subsystem. *)
Lemma diskstats_names_distinct (logger : Logger) :
  NoDup (map (fun d => prometheus.fqName
                         (Collector.desc (Diskstats.typedDesc d)))
             (Diskstats.descs _ (fst (NewCollector logger)))).
Proof.
  change (NoDup (map fq
    ["reads_completed_total"; "read_sectors_total";
     "read_time_seconds_total"; "writes_completed_total";
     "written_sectors_total"; "write_time_seconds_total";
     "read_bytes_total"; "written_bytes_total"; "read_errors_total";
     "write_errors_total"; "read_retries_total"; "write_retries_total"])).
  apply NoDup_map_in.
  - intros a b Ha Hb. apply BuildFQName_inj.
    + cbn [In] in Ha. intuition (subst; discriminate).
    + cbn [In] in Hb. intuition (subst; discriminate).
  - repeat constructor; cbn [In]; intuition discriminate.
Qed.

End DiskstatsMore.

(* ------------------------------------------------------------------ *)
(** ** More on the qdisc collector *)

Section QdiscMore.

Variable Logger : Type.
Variable namespace : string.
Variable diskSubsystem : string.
Variable diskLabelNames : list string.
Variable constLabels : prometheus.Labels.
Variable json_Unmarshal : string -> list qdisc.QdiscInfo * option error.
Variable filepath_Join : string -> string -> string.

Local Abbreviation NewCollector :=
  (Qdisc.NewQdiscStatCollector Logger namespace constLabels).
Local Abbreviation Update :=
  (Qdisc.Update Logger json_Unmarshal filepath_Join).
Local Abbreviation source := (qdiscSource json_Unmarshal filepath_Join).
Local Abbreviation fq := (prometheus.BuildFQName namespace "qdisc").

Lemma qdisc_names_distinct (logger : Logger) :
  NoDup (map (fun d => prometheus.fqName (Collector.desc d))
             (qdiscDeclared (fst (NewCollector logger)))).
Proof.
  change (NoDup (map fq
    ["bytes_total"; "packets_total"; "drops_total"; "requeues_total";
     "overlimits_total"; "current_queue_length"; "backlog"])).
  apply NoDup_map_in.
  - intros a b Ha Hb. apply BuildFQName_inj.
    + cbn [In] in Ha. intuition (subst; discriminate).
    + cbn [In] in Hb. intuition (subst; discriminate).
  - repeat constructor; cbn [In]; intuition discriminate.
Qed.

(** X6. No two descriptors of a collector share a fully-qualified name,
    whatever the namespace and the subsystem: the seven names of the
    qdisc collector are pairwise different, and so are the twelve names
    of the diskstats collector. *)
Theorem descriptor_names_distinct (logger : Logger) :
  NoDup (map (fun d => prometheus.fqName (Collector.desc d))
             (qdiscDeclared (fst (NewCollector logger)))) /\
  NoDup (map (fun d => prometheus.fqName
                         (Collector.desc (Diskstats.typedDesc d)))
             (Diskstats.descs _
                (fst (Diskstats.NewDiskstatsCollector
                        Logger namespace diskSubsystem diskLabelNames
                        constLabels logger)))).
Proof.
  split; [apply qdisc_names_distinct | apply diskstats_names_distinct].
Qed.

Ltac qdisc_series_column :=
  unfold series; rewrite filter_flat_map, map_flat_map;
  match goal with
  | |- context [filter isRoot ?msgs] =>
    induction (filter isRoot msgs) as [|msg roots IH];
    [reflexivity|];
    cbn [flat_map map]; rewrite IH; unfold qdiscCounters;
    cbn [fst Qdisc.NewQdiscStatCollector map filter observe
         prometheus.desc Collector.desc prometheus.fqName
         prometheus.NewDesc Qdisc.bytes Qdisc.packets Qdisc.drops
         Qdisc.requeues Qdisc.overlimits Qdisc.qlength Qdisc.backlog];
    rewrite !BuildFQName_eqb by discriminate;
    reflexivity
  end.

(** X4. Each of the seven series receives exactly one sample per root entry,
    in the order of the fetched list, labelled with the entry's interface
    name and kind and carrying the float of the matching counter. *)
Theorem qdisc_series_per_root
        (logger : Logger) (fixtures : string) (w : World)
        (msgs : list qdisc.QdiscInfo) :
  source w fixtures = (msgs, None) ->
  let r := Update (fst (NewCollector logger)) fixtures w in
  let view := fun name =>
    map (fun m => (prometheus.labelValues m, prometheus.value m))
        (series (fq name) (samples r)) in
  let column := fun field : qdisc.QdiscInfo -> Z =>
    map (fun msg => ([qdisc.IfaceName msg; qdisc.Kind msg],
                     Float64.of_int (field msg)))
        (filter isRoot msgs) in
  view "bytes_total" = column qdisc.Bytes /\
  view "packets_total" = column qdisc.Packets /\
  view "drops_total" = column qdisc.Drops /\
  view "requeues_total" = column qdisc.Requeues /\
  view "overlimits_total" = column qdisc.Overlimits /\
  view "current_queue_length" = column qdisc.Qlen /\
  view "backlog" = column qdisc.Backlog.
Proof.
  intros Hsrc r view column.
  assert (Hr : samples r =
               flat_map (qdiscCounters (fst (NewCollector logger)))
                        (filter isRoot msgs)).
  { unfold r. rewrite qdisc_Update_eq, Hsrc. reflexivity. }
  unfold view, column. rewrite Hr. clear Hr Hsrc r view column.
  repeat split; qdisc_series_column.
Qed.

End QdiscMore.

(* ------------------------------------------------------------------ *)
(** ** Durations in seconds *)

Lemma shl_align_fst (m : positive) (e ez : Z) :
  ez <= e -> Zpos (fst (shl_align m e ez)) = Zpos m * 2 ^ (e - ez).
Proof.
  intros Hle. unfold shl_align.
  destruct (ez - e) as [|d|d] eqn:E; cbn [fst]; try lia.
  - replace (e - ez) with 0 by lia. rewrite Z.pow_0_r. lia.
  - rewrite Pos_iter_xO. f_equal. f_equal. lia.
Qed.

(** Adding two finite floats of the same sign, the first with a full
    mantissa: the sum of the aligned mantissas is rounded to nearest. *)
Lemma SFadd_same_sign (s : bool) (m1 m2 : positive) (e1 e2 : Z) :
  2 ^ 52 <= Zpos m1 < 2 ^ 53 -> Zpos m2 < 2 ^ 53 ->
  -1000 <= e1 <= 800 -> -1000 <= e2 <= 800 -> -100 <= e1 - e2 <= 100 ->
  let ez := Z.min e1 e2 in
  let M := Zpos m1 * 2 ^ (e1 - ez) + Zpos m2 * 2 ^ (e2 - ez) in
  exists m e,
    SFadd 53 1024 (S754_finite s m1 e1) (S754_finite s m2 e2) =
    S754_finite s m e /\
    ez <= e /\
    2 * Z.abs (Zpos m * 2 ^ (e - ez) - M) <= 2 ^ (Zdigits2 M - 53).
Proof.
  intros Hm1 Hm2 He1 He2 Hd ez M.
  assert (Hez1 : ez <= e1) by (unfold ez; lia).
  assert (Hez2 : ez <= e2) by (unfold ez; lia).
  pose proof (shl_align_fst m1 e1 ez Hez1) as Ha.
  pose proof (shl_align_fst m2 e2 ez Hez2) as Hb.
  set (a := fst (shl_align m1 e1 ez)) in *.
  set (b := fst (shl_align m2 e2 ez)) in *.
  assert (HM : Zpos (a + b) = M) by (unfold M; lia).
  pose proof (pow2_pos (e1 - ez) ltac:(lia)) as Hp1.
  pose proof (pow2_pos (e2 - ez) ltac:(lia)) as Hp2.
  assert (HMlo : 2 ^ 52 <= M).
  { unfold M. assert (Zpos m1 * 1 <= Zpos m1 * 2 ^ (e1 - ez))
      by (apply Z.mul_le_mono_nonneg_l; lia). lia. }
  assert (HMhi : M < 2 ^ 155).
  { unfold M.
    assert (2 ^ (e1 - ez) <= 2 ^ 100) by (apply Z.pow_le_mono_r; lia).
    assert (2 ^ (e2 - ez) <= 2 ^ 100) by (apply Z.pow_le_mono_r; lia).
    assert (Zpos m1 * 2 ^ (e1 - ez) <= 2 ^ 53 * 2 ^ 100)
      by (apply Z.mul_le_mono_nonneg; lia).
    assert (Zpos m2 * 2 ^ (e2 - ez) <= 2 ^ 53 * 2 ^ 100)
      by (apply Z.mul_le_mono_nonneg; lia).
    change (2 ^ 155) with (2 ^ 53 * 2 ^ 100 * 4). lia. }
  destruct (Zdigits2_bounds M ltac:(lia)) as [[Hdl Hdh] Hd0].
  set (d := Zdigits2 M) in *.
  assert (Hd53 : 53 <= d).
  { destruct (Z.le_gt_cases 53 d) as [|Hlt]; [assumption|].
    assert (2 ^ d <= 2 ^ 52) by (apply Z.pow_le_mono_r; lia). lia. }
  assert (Hd155 : d <= 155).
  { destruct (Z.le_gt_cases d 155) as [|Hgt]; [assumption|].
    assert (2 ^ 155 <= 2 ^ (d - 1)) by (apply Z.pow_le_mono_r; lia). lia. }
  destruct (binary_round_aux_located s M ez loc_Exact M 1)
    as (m & e & Hr & _ & He & Herr); try (fold d; lia).
  { apply located_exact. lia. }
  fold d in He, Herr. rewrite !Z.mul_1_r in Herr.
  exists m, e. split; [|split; [lia | exact Herr]].
  cbn [SFadd]. fold ez. fold a b.
  assert (Hnorm : binary_normalize 53 1024
                    (cond_Zopp s (Zpos a) + cond_Zopp s (Zpos b)) ez false =
                  binary_round 53 1024 s (a + b) ez)
    by (destruct s; reflexivity).
  rewrite Hnorm. unfold binary_round.
  change (Zpos (digits2_pos (a + b))) with (Zdigits2 (Zpos (a + b))).
  rewrite HM. fold d. rewrite fexp_normal by lia.
  unfold shl_align.
  destruct (d + ez - 53 - ez) as [|q|q] eqn:E; try lia; rewrite HM; exact Hr.
Qed.

Lemma pow2_lt_inv (a b : Z) : 0 <= b -> 2 ^ a < 2 ^ b -> a < b.
Proof.
  intros Hb H. destruct (Z.lt_ge_cases a b) as [|Hge]; [assumption|].
  assert (2 ^ b <= 2 ^ a) by (apply Z.pow_le_mono_r; lia). lia.
Qed.

(** The float [Duration.Seconds] computes from the whole seconds [sec] and
    the remaining nanoseconds [nsec] of a duration of sign [s]. *)
Lemma seconds_sum (s : bool) (sec nsec : Z) :
  0 <= sec <= 9223372036 -> 0 <= nsec < 1000000000 ->
  let x := Float64.add (Float64.of_int (cond_Zopp s sec))
                       (Float64.div (Float64.of_int (cond_Zopp s nsec))
                                    Float64.c1e9) in
  Float64.is_finite x = true /\
  exists V,
    (Float64.toQ x * inject_Z (2 ^ 82) == inject_Z (cond_Zopp s V))%Q /\
    Z.abs (V * 10 ^ 9 - (sec * 10 ^ 9 + nsec) * 2 ^ 82)
    <= 10 ^ 9 * (2 ^ 63 + 2 ^ 62) + 2 ^ 91 /\
    (nsec = 0 -> V = sec * 2 ^ 82).
Proof.
  intros HS HR.
  assert (Hzero : Float64.div (Float64.of_int 0) Float64.c1e9 =
                  S754_zero false) by reflexivity.
  assert (Hof : forall p, Float64.of_int (cond_Zopp s (Zpos p)) =
                          binary_round 53 1024 s p 0)
    by (intros p; destruct s; reflexivity).
  assert (Hof0 : cond_Zopp s 0 = 0) by (destruct s; reflexivity).
  destruct sec as [|p|p]; try lia; destruct nsec as [|r|r]; try lia;
    rewrite ?Hof0, ?Hof, ?Hzero; cbv zeta.
  - (* a zero duration *)
    split; [reflexivity|]. exists 0. rewrite Hof0.
    split; [reflexivity|]. split; [cbn; lia | reflexivity].
  - (* less than a second *)
    destruct (seconds_of_nanos s r) as (mq & eq & Hd & [Heq Hmq] & Herr); [lia|].
    rewrite Hd. change (Float64.of_int 0) with (S754_zero false).
    cbn [Float64.add SFadd Float64.is_finite].
    split; [reflexivity|]. exists (Zpos mq * 2 ^ (eq + 82)).
    split; [|split; [|discriminate]].
    + rewrite (toQ_scaled s mq eq 82) by lia.
      destruct s; cbn [cond_Zopp]; [|reflexivity].
      now rewrite Z.mul_opp_l.
    + change (10 ^ 9) with 1000000000 in *.
      change (2 ^ 82) with 4835703278458516698824704 in *.
      change (2 ^ 63) with 9223372036854775808 in *.
      change (2 ^ 62) with 4611686018427387904.
      change (2 ^ 91) with 2475880078570760549798248448 in *.
      lia.
  - (* whole seconds *)
    destruct (binary_round_int_exact s p) as (ma & ea & Hr & Hm & He & Hex); [lia|].
    rewrite Hr. cbn [Float64.add SFadd Float64.is_finite].
    split; [reflexivity|]. exists (Zpos p * 2 ^ 82).
    split; [|split; [|reflexivity]].
    + rewrite (toQ_scaled s ma ea 82) by lia.
      replace (ea + 82) with ((ea + 52) + 30) by lia.
      rewrite Z.pow_add_r by lia.
      replace (cond_Zopp s (Zpos ma) * (2 ^ (ea + 52) * 2 ^ 30))
        with (cond_Zopp s (Zpos p * 2 ^ 82)); [reflexivity|].
      change (2 ^ 82) with (2 ^ 52 * 2 ^ 30).
      destruct s; cbn [cond_Zopp]; nia.
    + rewrite Z.add_0_r.
      replace (Zpos p * 2 ^ 82 * 10 ^ 9 - Zpos p * 10 ^ 9 * 2 ^ 82) with 0 by ring.
      cbn. lia.
  - (* seconds and nanoseconds *)
    destruct (binary_round_int_exact s p) as (ma & ea & Hr & Hm & He & Hex); [lia|].
    destruct (seconds_of_nanos s r) as (mq & eq & Hd & [Heq Hmq] & Herr); [lia|].
    rewrite Hr, Hd.
    destruct (SFadd_same_sign s ma mq ea eq) as (m & e & Hadd & Hee & Hsum);
      try lia.
    unfold Float64.add, Float64.prec, Float64.emax. rewrite Hadd.
    split; [reflexivity|].
    set (ez := Z.min ea eq) in *.
    set (M := Zpos ma * 2 ^ (ea - ez) + Zpos mq * 2 ^ (eq - ez)) in *.
    set (T := 2 ^ (ez + 82)).
    assert (HT : 0 < T) by (apply pow2_pos; unfold ez; lia).
    set (V1 := Zpos p * 2 ^ 82).
    set (V2 := Zpos mq * 2 ^ (eq + 82)) in *.
    assert (HV1 : Zpos ma * 2 ^ (ea + 82) = V1).
    { replace (ea + 82) with ((ea + 52) + 30) by lia.
      rewrite Z.pow_add_r by lia. unfold V1.
      change (2 ^ 82) with (2 ^ 52 * 2 ^ 30). nia. }
    assert (HMT : M * T = V1 + V2).
    { unfold M, T, V2. rewrite <- HV1.
      rewrite Z.mul_add_distr_r, <- !Z.mul_assoc, <- !Z.pow_add_r
        by (unfold ez; lia).
      f_equal; f_equal; f_equal; lia. }
    change (10 ^ 9) with 1000000000 in *.
    change (2 ^ 82) with 4835703278458516698824704 in *.
    change (2 ^ 63) with 9223372036854775808 in *.
    change (2 ^ 91) with 2475880078570760549798248448 in *.
    change (2 ^ 62) with 4611686018427387904.
    assert (HV2 : 0 <= V2 < 2 ^ 83).
    { change (2 ^ 83) with 9671406556917033397649408.
      assert (0 <= V2) by (unfold V2; pose proof (pow2_pos (eq + 82)); nia).
      lia. }
    assert (Hsm : V1 + V2 < 2 ^ 116).
    { change (2 ^ 116) with (17179869184 * 4835703278458516698824704).
      change (2 ^ 83) with 9671406556917033397649408 in HV2.
      unfold V1. lia. }
    assert (HMpos : 0 < M) by nia.
    destruct (Zdigits2_bounds M HMpos) as [[Hdl Hdh] Hd0].
    set (d := Zdigits2 M) in *.
    assert (Hdez : d + ez <= 34).
    { assert (Hlt : 2 ^ ((d - 1) + (ez + 82)) < 2 ^ 116).
      { rewrite Z.pow_add_r by (unfold ez; lia). fold T.
        apply Z.le_lt_trans with (M * T); [|lia].
        apply Z.mul_le_mono_nonneg_r; lia. }
      apply pow2_lt_inv in Hlt; lia. }
    assert (Hd53 : 53 <= d).
    { assert (2 ^ 52 <= M).
      { unfold M. pose proof (pow2_pos (ea - ez) ltac:(unfold ez; lia)).
        pose proof (pow2_pos (eq - ez) ltac:(unfold ez; lia)). nia. }
      destruct (Z.le_gt_cases 53 d) as [|Hlt]; [assumption|].
      assert (2 ^ d <= 2 ^ 52) by (apply Z.pow_le_mono_r; lia). lia. }
    assert (HdT : 2 ^ (d - 53) * T <= 9223372036854775808).
    { unfold T. rewrite <- Z.pow_add_r by (unfold ez; lia).
      change 9223372036854775808 with (2 ^ 63).
      apply Z.pow_le_mono_r; lia. }
    set (P := Zpos m * 2 ^ (e - ez)) in *.
    exists (P * T). split; [|split; [|discriminate]].
    + rewrite (toQ_scaled s m e 82) by (unfold ez in Hee; lia).
      replace (e + 82) with ((e - ez) + (ez + 82)) by lia.
      rewrite Z.pow_add_r by (unfold ez in *; lia). fold T.
      replace (cond_Zopp s (Zpos m) * (2 ^ (e - ez) * T))
        with (cond_Zopp s (P * T)); [reflexivity|].
      unfold P. destruct s; cbn [cond_Zopp]; ring.
    + assert (Hround : 2 * Z.abs (P * T - (V1 + V2)) <= 9223372036854775808).
      { rewrite <- HMT.
        replace (P * T - M * T) with ((P - M) * T) by ring.
        rewrite Z.abs_mul, (Z.abs_eq T) by lia.
        apply Z.le_trans with (2 ^ (d - 53) * T); [|exact HdT].
        rewrite Z.mul_assoc. apply Z.mul_le_mono_nonneg_r; lia. }
      unfold V1 in *. lia.
Qed.

Lemma quot_rem_sign (d : Z) :
  - 2 ^ 63 <= d < 2 ^ 63 ->
  exists s sec nsec,
    0 <= sec <= 9223372036 /\ 0 <= nsec < 1000000000 /\
    Z.quot d 1000000000 = cond_Zopp s sec /\
    Z.rem d 1000000000 = cond_Zopp s nsec /\
    d = cond_Zopp s (sec * 1000000000 + nsec).
Proof.
  intros Hd. change (2 ^ 63) with 9223372036854775808 in Hd.
  pose proof (Z.quot_rem' d 1000000000) as Hqr.
  destruct (Z.le_gt_cases 0 d) as [Hpos|Hneg].
  - pose proof (Z.rem_bound_pos d 1000000000 Hpos ltac:(lia)) as Hr.
    pose proof (Z.quot_pos d 1000000000 Hpos ltac:(lia)) as Hq.
    exists false, (Z.quot d 1000000000), (Z.rem d 1000000000).
    cbn [cond_Zopp]. repeat split; try lia.
  - pose proof (Z.rem_bound_pos (- d) 1000000000 ltac:(lia) ltac:(lia)) as Hr.
    pose proof (Z.quot_pos (- d) 1000000000 ltac:(lia) ltac:(lia)) as Hq.
    rewrite Z.rem_opp_l in Hr by lia. rewrite Z.quot_opp_l in Hq by lia.
    exists true, (- Z.quot d 1000000000), (- Z.rem d 1000000000).
    cbn [cond_Zopp]. repeat split; try lia.
Qed.

Lemma Seconds_accuracy (d : Z) :
  - 2 ^ 63 <= d < 2 ^ 63 ->
  Float64.is_finite (gotime.Seconds d) = true /\
  (Qabs (Float64.toQ (gotime.Seconds d) - (d # 1000000000)) <= 1 # 250000)%Q /\
  (Z.rem d 1000000000 = 0 ->
   (Float64.toQ (gotime.Seconds d) == d # 1000000000)%Q).
Proof.
  intros Hd.
  destruct (quot_rem_sign d Hd) as (s & sec & nsec & HS & HR & Hq & Hr & Hdec).
  unfold gotime.Seconds, gotime.Second. cbv zeta. rewrite Hq, Hr.
  destruct (seconds_sum s sec nsec HS HR) as [Hfin (V & HQ & Herr & Hex)].
  cbv zeta in Hfin, HQ.
  split; [exact Hfin|].
  change (2 ^ 82) with (Zpos (2 ^ 82)%positive) in HQ at 1.
  apply toQ_as_fraction in HQ.
  change (10 ^ 9) with 1000000000 in *.
  change (2 ^ 82) with 4835703278458516698824704 in *.
  change (2 ^ 63) with 9223372036854775808 in *.
  change (2 ^ 62) with 4611686018427387904 in *.
  change (2 ^ 91) with 2475880078570760549798248448 in *.
  split.
  - rewrite HQ. apply Qabs_Qle_condition.
    unfold Qle, Qminus, Qplus, Qopp. cbn [Qnum Qden].
    change (Zpos (2 ^ 82)%positive) with 4835703278458516698824704.
    rewrite Hdec. destruct s; cbn [cond_Zopp]; lia.
  - intros Hrem. rewrite HQ. unfold Qeq. cbn [Qnum Qden].
    change (Zpos (2 ^ 82)%positive) with 4835703278458516698824704.
    assert (nsec = 0) by (destruct s; cbn [cond_Zopp] in Hrem; lia).
    rewrite (Hex H), Hdec. subst nsec.
    destruct s; cbn [cond_Zopp]; lia.
Qed.

Section DiskstatsValues.

Variable Logger : Type.
Variable namespace : string.
Variable diskSubsystem : string.
Variable diskLabelNames : list string.
Variable constLabels : prometheus.Labels.

Local Abbreviation NewCollector :=
  (Diskstats.NewDiskstatsCollector Logger namespace diskSubsystem
                                   diskLabelNames constLabels).
Local Abbreviation Update := (Diskstats.Update Logger).

(** X12. The twelve values sent for a drive whose numbers are int64 stand for
    the drive's statistics: the eight integer counters are finite floats,
    exact below [2^53] and within 1024 otherwise; the two durations are
    reported in seconds within 4 microseconds, exactly when they are
    whole seconds; the two sector values are the float quotients of the
    operation counts by the block size. *)
Theorem diskstats_values_faithful
        (logger : Logger) (w : World) (stats : list iostat.DriveStats) :
  List.length diskLabelNames = 1%nat ->
  iostat_ReadDriveStats w = (stats, None) ->
  Forall driveWellTyped stats ->
  Forall2 (fun m meaning => meaning (prometheus.value m))
          (samples (Update (fst (NewCollector logger)) w))
          (flat_map driveMeaning stats).
Proof.
  intros Hlen Hfetch Hwt.
  rewrite diskstats_Update_eq, Hfetch by exact Hlen.
  cbn [fst snd samples sent].
  apply Forall2_flat_map. revert Hwt. apply Forall_impl.
  intros st (_ & _ & Hbr & Hbw & Hnr & Hnw & Htr & Htw & _ & _ &
             Hre & Hwe & Hrr & Hwr).
  assert (H64 : forall z, int64 z -> faithful (Float64.of_int z) z).
  { intros z Hz. apply of_int_faithful. unfold int64 in Hz.
    change (2 ^ 63) with 9223372036854775808 in Hz.
    change (2 ^ 64) with 18446744073709551616. lia. }
  assert (Hsec : forall d, int64 d -> secondsNear (gotime.Seconds d) d)
    by (intros d Hd0; now apply Seconds_accuracy).
  unfold driveCounters, driveMeaning.
  cbn [fst Diskstats.NewDiskstatsCollector Diskstats.descs map observe
       prometheus.value Diskstats.value].
  repeat apply Forall2_cons; try apply Forall2_nil; cbv beta;
    first [ reflexivity
          | apply H64; assumption
          | apply Hsec; assumption ].
Qed.

End DiskstatsValues.

(* ------------------------------------------------------------------ *)
(** ** The live qdisc source *)

(** X5. With the fixture flag empty, a call of the qdisc collector depends on
    the machine only through what [qdisc.Get] returns: the files, the
    JSON decoder and the path join play no part. *)
Theorem qdisc_live_ignores_fixtures
        (Logger : Type) (namespace : string)
        (constLabels : prometheus.Labels)
        (json1 json2 : string -> list qdisc.QdiscInfo * option error)
        (join1 join2 : string -> string -> string)
        (logger : Logger) (w1 w2 : World) :
  qdisc_Get w1 = qdisc_Get w2 ->
  let c := fst (Qdisc.NewQdiscStatCollector Logger namespace constLabels
                                            logger) in
  Qdisc.Update Logger json1 join1 c "" w1 =
  Qdisc.Update Logger json2 join2 c "" w2.
Proof.
  intros Hget c. unfold c. rewrite !qdisc_Update_eq.
  unfold qdiscSource. cbn [String.eqb]. now rewrite Hget.
Qed.

(* ------------------------------------------------------------------ *)
(** ** The added theorems on concrete machines *)

Lemma time_update_value_accuracy_witness :
  exists v,
    map prometheus.value
        (samples (Time.Update unit
                    (fst (Time.NewTimeCollector unit Example.namespace
                                                Example.constLabels tt))
                    Example.machine)) = [v] /\
    (Qabs (Float64.toQ v - (1700000000123456789 # 1000000000))
     <= 1 # 400000)%Q.
Proof.
  destruct (time_update_value_accuracy
              unit Example.namespace Example.constLabels tt Example.machine)
    as (_ & v & Hs & _ & _ & Hv).
  - cbn. lia.
  - exists v. rewrite Hs. split; [reflexivity | exact Hv].
Defined.

Lemma time_update_difference_witness :
  exists v1 v2,
    map prometheus.value
        (samples (Time.Update unit
                    (fst (Time.NewTimeCollector unit Example.namespace
                                                Example.constLabels tt))
                    Example.machine)) = [v1] /\
    map prometheus.value
        (samples (Time.Update unit
                    (fst (Time.NewTimeCollector unit Example.namespace
                                                Example.constLabels tt))
                    Example.machine_later)) = [v2] /\
    (Qabs (Float64.toQ v2 - Float64.toQ v1 - 1) <= 1 # 200000)%Q.
Proof.
  destruct (time_update_difference
              unit Example.namespace Example.constLabels tt
              Example.machine Example.machine_later)
    as (v1 & v2 & H1 & H2 & _ & Hd).
  - cbn. lia.
  - cbn. lia.
  - exists v1, v2. split; [exact H1|]. split; [exact H2|].
    apply Hd. reflexivity.
Defined.

Lemma qdisc_values_faithful_witness :
  Forall2 (fun m z => (Float64.toQ (prometheus.value m) == inject_Z z)%Q)
    (samples (Qdisc.Update unit Example.json_Unmarshal Example.filepath_Join
                (fst (Qdisc.NewQdiscStatCollector
                        unit Example.namespace Example.constLabels tt))
                "" Example.machine))
    [1000; 10; 0; 0; 0; 5; 200].
Proof.
  refine (proj2
    (qdisc_values_faithful
       unit Example.namespace Example.constLabels
       Example.json_Unmarshal Example.filepath_Join tt "" Example.machine
       [Example.root_entry; Example.child_entry] eq_refl _) _).
  - repeat constructor; cbn; lia.
  - repeat constructor; cbn; lia.
Defined.

Lemma qdisc_series_per_root_witness :
  map (fun m => (prometheus.labelValues m, prometheus.value m))
      (series "node_qdisc_bytes_total"
         (samples (Qdisc.Update unit Example.json_Unmarshal
                     Example.filepath_Join
                     (fst (Qdisc.NewQdiscStatCollector
                             unit Example.namespace Example.constLabels tt))
                     "fixtures/qdisc" Example.machine_later))) =
  [(["eth0"; "pfifo"], Float64.of_int 1000)].
Proof.
  exact (proj1
    (qdisc_series_per_root
       unit Example.namespace Example.constLabels
       Example.json_Unmarshal Example.filepath_Join tt "fixtures/qdisc"
       Example.machine_later
       [Example.root_entry; Example.child_entry] eq_refl)).
Defined.

Lemma qdisc_live_ignores_fixtures_witness :
  Qdisc.Update unit Example.json_Unmarshal Example.filepath_Join
    (fst (Qdisc.NewQdiscStatCollector
            unit Example.namespace Example.constLabels tt))
    "" Example.machine =
  Qdisc.Update unit Lab.json_reject (fun dir _ => dir)
    (fst (Qdisc.NewQdiscStatCollector
            unit Example.namespace Example.constLabels tt))
    "" Lab.machine_blank.
Proof.
  exact (qdisc_live_ignores_fixtures
           unit Example.namespace Example.constLabels
           Example.json_Unmarshal Lab.json_reject
           Example.filepath_Join (fun dir _ => dir) tt
           Example.machine Lab.machine_blank eq_refl).
Defined.

Lemma diskstats_ignores_unreported_fields_witness :
  Diskstats.Update unit
    (fst (Diskstats.NewDiskstatsCollector
            unit Example.namespace Example.diskSubsystem
            Example.diskLabelNames Example.constLabels tt))
    Example.machine =
  Diskstats.Update unit
    (fst (Diskstats.NewDiskstatsCollector
            unit Example.namespace Example.diskSubsystem
            Example.diskLabelNames Example.constLabels tt))
    Lab.machine_resized.
Proof.
  exact (diskstats_ignores_unreported_fields
           unit Example.namespace Example.diskSubsystem
           Example.diskLabelNames Example.constLabels tt
           Example.machine Lab.machine_resized eq_refl eq_refl).
Defined.

Lemma diskstats_series_layout_witness :
  map (fun m => prometheus.fqName (prometheus.desc m))
      (samples (Diskstats.Update unit
         (fst (Diskstats.NewDiskstatsCollector
                 unit Example.namespace Example.diskSubsystem
                 Example.diskLabelNames Example.constLabels tt))
         Example.machine)) =
  [ "node_disk_reads_completed_total"; "node_disk_read_sectors_total";
    "node_disk_read_time_seconds_total";
    "node_disk_writes_completed_total"; "node_disk_written_sectors_total";
    "node_disk_write_time_seconds_total"; "node_disk_read_bytes_total";
    "node_disk_written_bytes_total"; "node_disk_read_errors_total";
    "node_disk_write_errors_total"; "node_disk_read_retries_total";
    "node_disk_write_retries_total" ].
Proof.
  pose proof (diskstats_series_layout
                unit Example.namespace Example.diskSubsystem
                Example.diskLabelNames Example.constLabels tt
                Example.machine [Example.disk0] eq_refl eq_refl) as H.
  apply (f_equal (map (fun t => fst (fst t)))) in H.
  rewrite map_map in H. exact H.
Defined.

Lemma diskstats_label_mismatch_panics_witness :
  result (Diskstats.Update unit
            (fst (Diskstats.NewDiskstatsCollector
                    unit Example.namespace Example.diskSubsystem
                    ["device"; "model"] Example.constLabels tt))
            Example.machine) = Panicked.
Proof.
  refine (proj1 (proj2
    (diskstats_label_mismatch_panics
       unit Example.namespace Example.diskSubsystem ["device"; "model"]
       Example.constLabels tt Example.machine _)) eq_refl _);
    discriminate.
Defined.

Lemma diskstats_zero_block_size_witness :
  In (["disk1"], S754_infinity false)
     (map (fun m => (prometheus.labelValues m, prometheus.value m))
          (series "node_disk_read_sectors_total"
             (samples (Diskstats.Update unit
                (fst (Diskstats.NewDiskstatsCollector
                        unit Example.namespace Example.diskSubsystem
                        Example.diskLabelNames Example.constLabels tt))
                Lab.machine_blank)))) /\
  In (["disk1"], S754_nan)
     (map (fun m => (prometheus.labelValues m, prometheus.value m))
          (series "node_disk_written_sectors_total"
             (samples (Diskstats.Update unit
                (fst (Diskstats.NewDiskstatsCollector
                        unit Example.namespace Example.diskSubsystem
                        Example.diskLabelNames Example.constLabels tt))
                Lab.machine_blank)))).
Proof.
  destruct (diskstats_zero_block_size
              unit Example.namespace Example.diskSubsystem
              Example.diskLabelNames Example.constLabels tt
              Lab.machine_blank [Example.disk0; Lab.blank_disk]
              Lab.blank_disk eq_refl eq_refl)
    as (_ & Hr & Hw & _).
  - right. left. reflexivity.
  - reflexivity.
  - unfold int64. cbn. lia.
  - unfold int64. cbn. lia.
  - split; [exact Hr | exact Hw].
Defined.

Lemma diskstats_values_faithful_witness :
  Forall2 (fun m meaning => meaning (prometheus.value m))
    (samples (Diskstats.Update unit
       (fst (Diskstats.NewDiskstatsCollector
               unit Example.namespace Example.diskSubsystem
               Example.diskLabelNames Example.constLabels tt))
       Example.machine))
    (driveMeaning Example.disk0).
Proof.
  pose proof (diskstats_values_faithful
                unit Example.namespace Example.diskSubsystem
                Example.diskLabelNames Example.constLabels tt
                Example.machine [Example.disk0] eq_refl eq_refl) as H.
  cbn [flat_map] in H. rewrite app_nil_r in H. apply H.
  constructor; [|constructor].
  unfold driveWellTyped, int64. cbn. lia.
Defined.

(* ------------------------------------------------------------------ *)
(** ** The time collector reads the clock at every call *)

Section TimeClock.

Variable Logger : Type.
Variable namespace : string.
Variable constLabels : prometheus.Labels.

Local Abbreviation NewCollector :=
  (Time.NewTimeCollector Logger namespace constLabels).
Local Abbreviation Update := (Time.Update Logger).

(** C7. Every call of the time collector's [Update] sends exactly one
    gauge sample, whose value is computed from the clock reading of that
    very call as [float64(UnixNano) / 1e9]: a finite float within 2.5
    microseconds of the reading in seconds since the epoch. Hence two
    calls whose readings are one second apart send values that differ by
    1.0 up to 5 microseconds. *)
Theorem time_update_reads_wall_clock (logger : Logger) (w1 w2 : World) :
  int64 (time_Now_UnixNano w1) -> int64 (time_Now_UnixNano w2) ->
  time_Now_UnixNano w2 = time_Now_UnixNano w1 + 1000000000 ->
  let c := fst (NewCollector logger) in
  let now := fun w => Float64.div (Float64.of_int (time_Now_UnixNano w))
                                  Float64.c1e9 in
  (forall w,
     samples (Update c w) =
     [ {| prometheus.desc := Time.desc _ c;
          prometheus.valType := prometheus.GaugeValue;
          prometheus.value := now w;
          prometheus.labelValues := [] |} ] /\
     result (Update c w) = Returned None) /\
  (forall w, int64 (time_Now_UnixNano w) ->
     Float64.is_finite (now w) = true /\
     (Qabs (Float64.toQ (now w) - (time_Now_UnixNano w # 1000000000))
      <= 1 # 400000)%Q) /\
  Float64.is_finite (now w1) = true /\
  Float64.is_finite (now w2) = true /\
  (Qabs (Float64.toQ (now w2) - Float64.toQ (now w1) - 1) <= 1 # 200000)%Q.
Proof.
  intros H1 H2 Hs c now.
  assert (Hacc : forall w, int64 (time_Now_UnixNano w) ->
            Float64.is_finite (now w) = true /\
            (Qabs (Float64.toQ (now w) -
                   (time_Now_UnixNano w # 1000000000)) <= 1 # 400000)%Q).
  { intros w Hw. unfold now. apply seconds_accuracy. exact Hw. }
  split.
  { intros w. unfold c. rewrite time_Update_eq. split; reflexivity. }
  split; [exact Hacc|].
  destruct (Hacc w1 H1) as [F1 A1]. destruct (Hacc w2 H2) as [F2 A2].
  split; [exact F1|]. split; [exact F2|].
  set (x1 := Float64.toQ (now w1)) in *.
  set (x2 := Float64.toQ (now w2)) in *.
  apply Qabs_Qle_condition in A1, A2.
  assert (E : (time_Now_UnixNano w2 # 1000000000 ==
               (time_Now_UnixNano w1 # 1000000000) + 1)%Q).
  { rewrite Hs. unfold Qeq, Qplus. cbn [Qnum Qden]. lia. }
  rewrite E in A2.
  set (q1 := (time_Now_UnixNano w1 # 1000000000)%Q) in *.
  apply Qabs_Qle_condition. split; lra.
Qed.

End TimeClock.

Lemma time_update_reads_wall_clock_witness :
  let now := fun w => Float64.div (Float64.of_int (time_Now_UnixNano w))
                                  Float64.c1e9 in
  map prometheus.value
      (samples (Time.Update unit
                  (fst (Time.NewTimeCollector unit Example.namespace
                                              Example.constLabels tt))
                  Example.machine_later)) = [now Example.machine_later] /\
  (Qabs (Float64.toQ (now Example.machine_later) -
         Float64.toQ (now Example.machine) - 1) <= 1 # 200000)%Q.
Proof.
  intros now.
  destruct (time_update_reads_wall_clock
              unit Example.namespace Example.constLabels tt
              Example.machine Example.machine_later)
    as (Hs & _ & _ & _ & Hd).
  - unfold int64. cbn. lia.
  - unfold int64. cbn. lia.
  - reflexivity.
  - split; [|exact Hd].
    destruct (Hs Example.machine_later) as [Hsam _].
    rewrite Hsam. reflexivity.
Defined.
